(** * Verification of fastbc: border-distance profiles ([VertexInfo]) and
      the parallel Louvain evaluator ([LouvainEvaluator]).

    Source files:
    - src/libfastbc/include/brandes/VertexInfo.h
    - src/libfastbc/include/louvain/LouvainEvaluator.h

    C++ effects are modelled explicitly: a call either returns a value
    ([Ok]), throws [std::out_of_range] ([OutOfRange]) or has undefined
    behaviour ([Undefined]), which is what [std::vector::operator[]] does
    with an index outside the vector. *)

From Stdlib Require Import ZArith QArith Lia Floats.
From stdpp Require Import base list.

Open Scope Z_scope.

(* ------------------------------------------------------------------ *)
(** ** Outcomes of C++ calls *)

Inductive outcome (A : Type) : Type :=
| Ok (a : A)
| OutOfRange
| Undefined.
Arguments Ok {A} a.
Arguments OutOfRange {A}.
Arguments Undefined {A}.

#[global] Instance outcome_ret : MRet outcome := fun _ a => Ok a.
#[global] Instance outcome_bind : MBind outcome := fun _ _ f m =>
  match m with
  | Ok a => f a
  | OutOfRange => OutOfRange
  | Undefined => Undefined
  end.

(** [v[i]] on a [std::vector]: undefined outside [0, v.size()). *)
Definition vec_get {A} (v : list A) (i : Z) : outcome A :=
  if decide (0 <= i) then
    match v !! Z.to_nat i with Some x => Ok x | None => Undefined end
  else Undefined.

(** [v[i] = x] on a [std::vector]. *)
Definition vec_set {A} (v : list A) (i : Z) (x : A) : outcome (list A) :=
  if decide (0 <= i) then
    if decide (Z.to_nat i < length v)%nat then Ok (<[Z.to_nat i := x]> v)
    else Undefined
  else Undefined.

(** [for (int i = start; i < start + k; ++i) body] threading a state. *)
Fixpoint for_range {St} (k : nat) (i : Z) (body : Z -> St -> outcome St)
    (s : St) : outcome St :=
  match k with
  | O => Ok s
  | S k' => s' ← body i s; for_range k' (i + 1) body s'
  end.

(* ------------------------------------------------------------------ *)
(** ** [VertexInfo<V, W>] *)

Record VertexInfo (V W : Type) := mkVertexInfo {
  _borderCount : Z;
  _borderSPLength : list W;
  _borderSPCount : list V
}.
Arguments mkVertexInfo {V W} _ _ _.
Arguments _borderCount {V W} _.
Arguments _borderSPLength {V W} _.
Arguments _borderSPCount {V W} _.

(** Both vectors have exactly [_borderCount] elements (class invariant
    established by the constructors). *)
Definition wf {V W} (p : VertexInfo V W) : Prop :=
  0 <= _borderCount p /\
  length (_borderSPLength p) = Z.to_nat (_borderCount p) /\
  length (_borderSPCount p) = Z.to_nat (_borderCount p).

Section Accessors.
Context {V W : Type}.

Definition setBorderSPLength (p : VertexInfo V W) (storeIndex : Z) (length : W)
    : outcome (VertexInfo V W) :=
  if decide (storeIndex < _borderCount p) then
    l ← vec_set (_borderSPLength p) storeIndex length;
    Ok (mkVertexInfo (_borderCount p) l (_borderSPCount p))
  else OutOfRange.

Definition getBorderSPLength (p : VertexInfo V W) (storeIndex : Z) : outcome W :=
  if decide (storeIndex < _borderCount p) then vec_get (_borderSPLength p) storeIndex
  else OutOfRange.

Definition setBorderSPCount (p : VertexInfo V W) (storeIndex : Z) (count : V)
    : outcome (VertexInfo V W) :=
  if decide (storeIndex < _borderCount p) then
    c ← vec_set (_borderSPCount p) storeIndex count;
    Ok (mkVertexInfo (_borderCount p) (_borderSPLength p) c)
  else OutOfRange.

Definition getBorderSPCount (p : VertexInfo V W) (storeIndex : Z) : outcome V :=
  if decide (storeIndex < _borderCount p) then vec_get (_borderSPCount p) storeIndex
  else OutOfRange.

Definition borders (p : VertexInfo V W) : Z := _borderCount p.

End Accessors.

(** From here on counts and lengths are exact integers: the profile
    [VertexInfo<V, W>] with [V] and [W] signed integer types whose values
    never overflow. *)
Abbreviation Profile := (VertexInfo Z Z).

(** [VertexInfo(int borderCount)]: zero-filled vectors. *)
Definition VertexInfo_new (borderCount : Z) : Profile :=
  mkVertexInfo borderCount (replicate (Z.to_nat borderCount) 0)
    (replicate (Z.to_nat borderCount) 0).

(** [compare]: one pass over the indices; at each index the count
    difference is tested first, then the length difference. *)
Fixpoint compare_from (k : nat) (i : Z) (p other : Profile) : outcome Z :=
  match k with
  | O => Ok 0
  | S k' =>
      c ← vec_get (_borderSPCount p) i;
      c' ← vec_get (_borderSPCount other) i;
      let cmp := c - c' in
      if decide (cmp <> 0) then Ok cmp else
      l ← vec_get (_borderSPLength p) i;
      l' ← vec_get (_borderSPLength other) i;
      let cmp := l - l' in
      if decide (cmp <> 0) then Ok cmp else
      compare_from k' (i + 1) p other
  end.

Definition compare (p other : Profile) : outcome Z :=
  compare_from (Z.to_nat (_borderCount p)) 0 p other.

Definition eqb_op (p other : Profile) : outcome bool :=
  c ← compare p other; Ok (bool_decide (c = 0)).

(** First non-zero element of a list, 0 if there is none. *)
Fixpoint first_nonzero (l : list Z) : Z :=
  match l with
  | [] => 0
  | x :: t => if decide (x <> 0) then x else first_nonzero t
  end.

(** The differences [compare] inspects, in the order it inspects them:
    [count[0]-other.count[0]; length[0]-other.length[0]; count[1]-...]. *)
Fixpoint interleaved_diffs (cs cs' ls ls' : list Z) : list Z :=
  match cs, cs', ls, ls' with
  | c :: cs, c' :: cs', l :: ls, l' :: ls' =>
      (c - c') :: (l - l') :: interleaved_diffs cs cs' ls ls'
  | _, _, _, _ => []
  end.

(** The order as the spec words it: all count differences first, then
    all length differences. *)
Definition compare_counts_first (p other : Profile) : Z :=
  first_nonzero (zip_with Z.sub (_borderSPCount p) (_borderSPCount other) ++
                 zip_with Z.sub (_borderSPLength p) (_borderSPLength other)).

(** [x op= other[i]] on the lengths at index [i], [op] given by [fl]. *)
Definition upd_length {V W} (fl : Z -> W -> outcome W) (i : Z) (s : VertexInfo V W)
    : outcome (VertexInfo V W) :=
  x ← vec_get (_borderSPLength s) i;
  x' ← fl i x;
  l ← vec_set (_borderSPLength s) i x';
  Ok (mkVertexInfo (_borderCount s) l (_borderSPCount s)).

(** The same on the counts. *)
Definition upd_count {V W} (fc : Z -> V -> outcome V) (i : Z) (s : VertexInfo V W)
    : outcome (VertexInfo V W) :=
  x ← vec_get (_borderSPCount s) i;
  x' ← fc i x;
  c ← vec_set (_borderSPCount s) i x';
  Ok (mkVertexInfo (_borderCount s) (_borderSPLength s) c).

(** The loop shared by the in-place operators:
    [for (int i = 0; i < _borderCount; ++i) { length[i] op= ..; count[i] op= ..; }] *)
Definition elementwise {V W} (fl : Z -> W -> outcome W) (fc : Z -> V -> outcome V)
    (p : VertexInfo V W) : outcome (VertexInfo V W) :=
  for_range (Z.to_nat (_borderCount p)) 0
    (fun i s => s' ← upd_length fl i s; upd_count fc i s') p.

(** [operator+=], [-=], [*=], [/=] with another profile: the loop bound is
    this profile's [_borderCount]; [other] is read at the same index.
    Integer [/] truncates toward zero and is undefined for a zero divisor. *)
Definition add_assign (p other : Profile) : outcome Profile :=
  elementwise (fun i x => y ← vec_get (_borderSPLength other) i; Ok (x + y))
              (fun i x => y ← vec_get (_borderSPCount other) i; Ok (x + y)) p.

Definition sub_assign (p other : Profile) : outcome Profile :=
  elementwise (fun i x => y ← vec_get (_borderSPLength other) i; Ok (x - y))
              (fun i x => y ← vec_get (_borderSPCount other) i; Ok (x - y)) p.

Definition mul_assign (p other : Profile) : outcome Profile :=
  elementwise (fun i x => y ← vec_get (_borderSPLength other) i; Ok (x * y))
              (fun i x => y ← vec_get (_borderSPCount other) i; Ok (x * y)) p.

Definition int_div (x y : Z) : outcome Z :=
  if decide (y = 0) then Undefined else Ok (Z.quot x y).

Definition div_assign (p other : Profile) : outcome Profile :=
  elementwise (fun i x => y ← vec_get (_borderSPLength other) i; int_div x y)
              (fun i x => y ← vec_get (_borderSPCount other) i; int_div x y) p.

(** [operator+] etc.: copy [*this] (a value), then apply the in-place form. *)
Definition add (p other : Profile) : outcome Profile := add_assign p other.
Definition sub (p other : Profile) : outcome Profile := sub_assign p other.
Definition mul (p other : Profile) : outcome Profile := mul_assign p other.
Definition div (p other : Profile) : outcome Profile := div_assign p other.

(** [*std::min_element(begin, end)]: the first smallest element (compared
    with [<]); dereferencing [end()] of an empty range is undefined. *)
Definition min_sel (m y : Z) : Z := if decide (y < m) then y else m.

Definition min_element (l : list Z) : outcome Z :=
  match l with
  | [] => Undefined
  | x :: t => Ok (foldl min_sel x t)
  end.

Definition getMinBorderSPLength (p : Profile) : outcome Z :=
  if decide (_borderCount p = 0) then Ok 0 else min_element (_borderSPLength p).

Definition normalize (p : Profile) : outcome Profile :=
  min ← getMinBorderSPLength p;
  for_range (Z.to_nat (_borderCount p)) 0 (upd_length (fun _ x => Ok (x - min))) p.

(* ------------------------------------------------------------------ *)
(** ** [squaredDistance] *)

Section SquaredDistance.
Context {V W D : Type}.
(** The arithmetic of an instantiation [VertexInfo<V, W>]:
    - [zeroW]: [W sqDistance = 0];
    - [subW]: [_borderSPLength[i] - (W)other._borderSPLength[i]], in [W];
    - [subV]: [_borderSPCount[i] - (V)other._borderSPCount[i]], in [V];
    - [powW], [powV]: [std::pow(_, 2)], whose result is a [double] ([D]);
    - [addW_D]: [sqDistance += d]. *)
Variable zeroW : W.
Variable subW : W -> W -> W.
Variable subV : V -> V -> V.
Variable powW : W -> D.
Variable powV : V -> D.
Variable addW_D : W -> D -> W.

Definition squaredDistance (p other : VertexInfo V W) : outcome W :=
  for_range (Z.to_nat (_borderCount p)) 0
    (fun i sqDistance =>
       l ← vec_get (_borderSPLength p) i;
       l' ← vec_get (_borderSPLength other) i;
       let sqDistance := addW_D sqDistance (powW (subW l l')) in
       c ← vec_get (_borderSPCount p) i;
       c' ← vec_get (_borderSPCount other) i;
       Ok (addW_D sqDistance (powV (subV c c'))))
    zeroW.

(** The same accumulation written over the lists, index by index, up to
    the shortest of them. *)
Fixpoint sqd_acc (acc : W) (ls ls' : list W) (cs cs' : list V) : W :=
  match ls, ls', cs, cs' with
  | l :: ls, l' :: ls', c :: cs, c' :: cs' =>
      sqd_acc (addW_D (addW_D acc (powW (subW l l'))) (powV (subV c c'))) ls ls' cs cs'
  | _, _, _, _ => acc
  end.

End SquaredDistance.

(** Exact instantiation: [V = W = D = Z]. *)
Definition sq (x : Z) : Z := x * x.
Definition squaredDistance_exact (p other : Profile) : outcome Z :=
  squaredDistance 0 Z.sub Z.sub sq sq Z.add p other.

(** Instantiation [VertexInfo<uint32_t, double>]: counts are [uint32_t]
    values (integers in [0, 2^32)), lengths and the sum are [double]s
    (primitive IEEE binary64 floats). *)
Definition u32_sub (a b : Z) : Z := (a - b) mod 2 ^ 32.
(** [(double)c] for a [uint32_t] [c]: exact. *)
Definition u32_to_double (a : Z) : float := PrimFloat.of_uint63 (Uint63.of_Z a).
(** [std::pow(x, 2)] on a [double]: the IEEE product [x * x]. At the
    inputs used below the square is exactly representable, so a [pow]
    with an error below one ulp returns this value. *)
Definition pow2 (x : float) : float := PrimFloat.mul x x.

Definition squaredDistance_u32_double (p other : VertexInfo Z float) : outcome float :=
  squaredDistance (0%float) PrimFloat.sub u32_sub pow2
    (fun c => pow2 (u32_to_double c)) PrimFloat.add p other.

(** The computation as C3 words it: both differences and both squares in
    [W = double], counts converted to [W] first. *)
Fixpoint sqd_all_in_W (acc : float) (ls ls' : list float) (cs cs' : list Z) : float :=
  match ls, ls', cs, cs' with
  | l :: ls, l' :: ls', c :: cs, c' :: cs' =>
      let dl := PrimFloat.sub l l' in
      let dc := PrimFloat.sub (u32_to_double c) (u32_to_double c') in
      sqd_all_in_W (PrimFloat.add acc (PrimFloat.add (PrimFloat.mul dl dl)
                                                     (PrimFloat.mul dc dc)))
        ls ls' cs cs'
  | _, _, _, _ => acc
  end.

(** Width-1 profiles of [VertexInfo<uint32_t, double>]: equal lengths,
    counts 0 and 65536. *)
Definition sqd_P : VertexInfo Z float := mkVertexInfo 1 [0%float] [0].
Definition sqd_Q : VertexInfo Z float := mkVertexInfo 1 [0%float] [65536].

(* ------------------------------------------------------------------ *)
(** ** [compare] for an instantiation [VertexInfo<V, W>] *)

Section CompareGeneric.
Context {V W : Type}.
(** - [zeroW]: the [0] returned when every index ties;
    - [subV]: [_borderSPCount[i] - other._borderSPCount[i]], in [V];
    - [castW]: the initialisation [W cmp = ...] of that [V] difference;
    - [subW]: [_borderSPLength[i] - other._borderSPLength[i]], in [W];
    - [neqW0]: the test [cmp != 0]. *)
Variable zeroW : W.
Variable subV : V -> V -> V.
Variable castW : V -> W.
Variable subW : W -> W -> W.
Variable neqW0 : W -> bool.

Fixpoint compare_gen_from (k : nat) (i : Z) (p other : VertexInfo V W) : outcome W :=
  match k with
  | O => Ok zeroW
  | S k' =>
      c ← vec_get (_borderSPCount p) i;
      c' ← vec_get (_borderSPCount other) i;
      let cmp := castW (subV c c') in
      if neqW0 cmp then Ok cmp else
      l ← vec_get (_borderSPLength p) i;
      l' ← vec_get (_borderSPLength other) i;
      let cmp := subW l l' in
      if neqW0 cmp then Ok cmp else
      compare_gen_from k' (i + 1) p other
  end.

Definition compare_gen (p other : VertexInfo V W) : outcome W :=
  compare_gen_from (Z.to_nat (_borderCount p)) 0 p other.

End CompareGeneric.

(** [compare] of [VertexInfo<uint32_t, double>]: the count difference is
    a [uint32_t] (it wraps), then converted to [double]. *)
Definition compare_u32_double (p other : VertexInfo Z float) : outcome float :=
  compare_gen 0%float u32_sub u32_to_double PrimFloat.sub
    (fun x => negb (PrimFloat.eqb x 0%float)) p other.

(** Width-1 profiles of [VertexInfo<uint32_t, double>]: equal lengths,
    counts 0 and 1. *)
Definition cnt_P : VertexInfo Z float := mkVertexInfo 1 [0%float] [0].
Definition cnt_Q : VertexInfo Z float := mkVertexInfo 1 [0%float] [1].

(** A profile wider than [cmp_P]. *)
Definition wide_Q : Profile := mkVertexInfo 3 [1; 2; 3] [4; 5; 6].

(* ------------------------------------------------------------------ *)
(** ** Conversions, [reset], scalar operators, relational operators *)

(** [std::vector::resize(n)] for [n >= 0]: keeps the first [n] elements and
    appends value-initialised ones ([z]) up to size [n]. *)
Definition vec_resize {A} (z : A) (n : Z) (v : list A) : list A :=
  take (Z.to_nat n) v ++ replicate (Z.to_nat n - length v) z.

Section Conversion.
Context {V W N E : Type}.
(** [W()] and [V()] (value initialisation), and the casts [(W)] and [(V)]
    from the other profile's [E] and [N]. *)
Variable zeroW : W.
Variable zeroV : V.
Variable castW : E -> W.
Variable castV : N -> V.

(** One round of the copy loop:
    [_borderSPLength[i] = (W)copy._borderSPLength[i];
     _borderSPCount[i] = (V)copy._borderSPCount[i];] *)
Definition copy_step (copy : VertexInfo N E) (i : Z) (s : VertexInfo V W)
    : outcome (VertexInfo V W) :=
  l ← vec_get (_borderSPLength copy) i;
  ls ← vec_set (_borderSPLength s) i (castW l);
  c ← vec_get (_borderSPCount copy) i;
  cs ← vec_set (_borderSPCount s) i (castV c);
  Ok (mkVertexInfo (_borderCount s) ls cs).

(** [template<N, E> VertexInfo(const VertexInfo<N, E>& copy)]: vectors of
    [copy._borderCount] value-initialised elements, then the copy loop
    (for a non-negative width). *)
Definition VertexInfo_copy (copy : VertexInfo N E) : outcome (VertexInfo V W) :=
  for_range (Z.to_nat (_borderCount copy)) 0 (copy_step copy)
    (mkVertexInfo (_borderCount copy)
       (replicate (Z.to_nat (_borderCount copy)) zeroW)
       (replicate (Z.to_nat (_borderCount copy)) zeroV)).

(** [template<N, E> operator=(const VertexInfo<N, E>& other)]: when the
    widths differ, take [other]'s width and [resize] both vectors; then the
    copy loop over the (new) width. *)
Definition assign (self : VertexInfo V W) (other : VertexInfo N E)
    : outcome (VertexInfo V W) :=
  let self :=
    if decide (_borderCount self <> _borderCount other) then
      mkVertexInfo (_borderCount other)
        (vec_resize zeroW (_borderCount other) (_borderSPLength self))
        (vec_resize zeroV (_borderCount other) (_borderSPCount self))
    else self in
  for_range (Z.to_nat (_borderCount self)) 0 (copy_step other) self.

End Conversion.

(** [reset()]: [_borderSPLength.assign(_borderCount, (W)0)] and the same
    for the counts (for a non-negative width). *)
Definition reset (p : Profile) : Profile :=
  mkVertexInfo (_borderCount p) (replicate (Z.to_nat (_borderCount p)) 0)
    (replicate (Z.to_nat (_borderCount p)) 0).

(** The operators with a number [num] ([T = Z]): [x op= num] on every
    length and count. [operator*=(T)] runs its loop with a [V] index, an
    integer here. [operator+(T)] etc. copy [*this] (a value) first. *)
Definition add_num_assign (p : Profile) (num : Z) : outcome Profile :=
  elementwise (fun _ x => Ok (x + num)) (fun _ x => Ok (x + num)) p.
Definition sub_num_assign (p : Profile) (num : Z) : outcome Profile :=
  elementwise (fun _ x => Ok (x - num)) (fun _ x => Ok (x - num)) p.
Definition mul_num_assign (p : Profile) (num : Z) : outcome Profile :=
  elementwise (fun _ x => Ok (x * num)) (fun _ x => Ok (x * num)) p.
Definition div_num_assign (p : Profile) (num : Z) : outcome Profile :=
  elementwise (fun _ x => int_div x num) (fun _ x => int_div x num) p.

Definition add_num (p : Profile) (num : Z) : outcome Profile := add_num_assign p num.
Definition sub_num (p : Profile) (num : Z) : outcome Profile := sub_num_assign p num.
Definition mul_num (p : Profile) (num : Z) : outcome Profile := mul_num_assign p num.
Definition div_num (p : Profile) (num : Z) : outcome Profile := div_num_assign p num.

(** [!=], [<], [>], [<=], [>=]: [compare(other)] against 0. *)
Definition neqb_op (p other : Profile) : outcome bool :=
  c ← compare p other; Ok (bool_decide (c <> 0)).
Definition ltb_op (p other : Profile) : outcome bool :=
  c ← compare p other; Ok (bool_decide (c < 0)).
Definition gtb_op (p other : Profile) : outcome bool :=
  c ← compare p other; Ok (bool_decide (c > 0)).
Definition leb_op (p other : Profile) : outcome bool :=
  c ← compare p other; Ok (bool_decide (c <= 0)).
Definition geb_op (p other : Profile) : outcome bool :=
  c ← compare p other; Ok (bool_decide (c >= 0)).

(* ------------------------------------------------------------------ *)
(** ** [LouvainEvaluator<V, W>] *)

(** [build_result] takes a [std::vector<int>], so [V = int]: community
    ids and vertex ids are [int]s ([Z]). *)

(** [renumber[n2c[node]]++] for every node, in order. *)
Fixpoint count_members (renumber : list Z) (n2c : list Z) : outcome (list Z) :=
  match n2c with
  | [] => Ok renumber
  | c :: n2c' =>
      r ← vec_get renumber c;
      renumber' ← vec_set renumber c (r + 1);
      count_members renumber' n2c'
  end.

(** [for (i = 0; i < n2c.size(); i++) if (renumber[i] != -1) renumber[i] = final++;]
    ([renumber] has [n2c.size()] entries). *)
Fixpoint assign_final (final : Z) (renumber : list Z) : list Z :=
  match renumber with
  | [] => []
  | r :: t =>
      if decide (r <> -1) then final :: assign_final (final + 1) t
      else r :: assign_final final t
  end.

(** [comms[i] = renumber[n2c[comms[i]]]] for every [i], in order. *)
Fixpoint relabel (renumber n2c : list Z) (comms : list Z) : outcome (list Z) :=
  match comms with
  | [] => Ok []
  | old_community :: comms' =>
      new_community ← vec_get n2c old_community;
      new_renumbered_community ← vec_get renumber new_community;
      rest ← relabel renumber n2c comms';
      Ok (new_renumbered_community :: rest)
  end.

Definition renumber_communities (comms n2c : list Z) : outcome (list Z) :=
  renumber ← count_members (replicate (length n2c) (-1)) n2c;
  relabel (assign_final 0 renumber) n2c comms.

(** [int max = 0; for (...) if (n2c[i] > max) max = n2c[i];] *)
Definition max_id (n2c : list Z) : Z :=
  foldl (fun max c => if decide (c > max) then c else max) 0 n2c.

(** [build_result]: [max + 1] empty communities, then [r[n2c[i]]->add(i)]
    for every vertex [i]. A community is modelled by the vertex ids passed
    to its [add], in call order. *)
Definition build_result (n2c : list Z) : outcome (list (list Z)) :=
  for_range (length n2c) 0
    (fun i r =>
       c ← vec_get n2c i;
       members ← vec_get r c;
       vec_set r c (members ++ [i]))
    (replicate (Z.to_nat (max_id n2c + 1)) []).

(** The vertex ids [i < upto] with [n2c[i] = c], ascending: what
    [build_result] adds to community [c] after its first [upto] rounds. *)
Definition community_members (n2c : list Z) (upto c : nat) : list Z :=
  Z.of_nat <$> filter (fun i => n2c !! i = Some (Z.of_nat c)) (seq 0 upto).

(** One [Partition] attempt of a level after [one_level()]. Modularities
    are finite [double]s, i.e. rationals; the selection only compares them. *)
Record Attempt (Graph : Type) := mkAttempt {
  improved : bool;      (* p[i].one_level() *)
  modularity : Q;       (* p[i].modularity() *)
  a_n2c : list Z;       (* p[i].n2c *)
  aggregated : Graph    (* p[i].partition2graph() *)
}.
Arguments mkAttempt {Graph} _ _ _ _.
Arguments improved {Graph} _.
Arguments modularity {Graph} _.
Arguments a_n2c {Graph} _.
Arguments aggregated {Graph} _.

Definition mod_at (modularities : list Q) (i : nat) : Q := default 0%Q (modularities !! i).

(** [for (int i = 1; i < parallelism; i++)
       if (modularities[i] > modularities[best_i]) best_i = i;] *)
Fixpoint best_scan (k i best_i : nat) (modularities : list Q) : nat :=
  match k with
  | O => best_i
  | S k' =>
      let best_i' :=
        if negb (Qle_bool (mod_at modularities i) (mod_at modularities best_i))
        then i else best_i in
      best_scan k' (S i) best_i' modularities
  end.

Definition best_attempt (modularities : list Q) : nat :=
  best_scan (length modularities - 1) 1 0 modularities.

(** Modelled from the spec ([Partition], the ClusterPass collaborator, is
    not in src/): the number of communities of an attempt's node-to-community
    array, i.e. of community ids in [0, n2c.size()) with at least one node.
    Its aggregated graph has one node per such community. *)
Definition nb_communities (n2c : list Z) : nat :=
  length (filter (fun c => Z.of_nat c ∈ n2c) (seq 0 (length n2c))).

(** Modelled from the spec: the ClusterPass contract for an attempt run on
    graph [g] — one community id in [0, nb_nodes g) per node, and an
    aggregated graph with one node per community. *)
Definition attempt_contract {Graph} (nb_nodes : Graph -> nat) (g : Graph)
    (a : Attempt Graph) : Prop :=
  length (a_n2c a) = nb_nodes g /\
  Forall (fun c => 0 <= c < Z.of_nat (nb_nodes g)) (a_n2c a) /\
  nb_nodes (aggregated a) = nb_communities (a_n2c a).

Section LouvainLoop.
Context {Graph : Type}.
Variable nb_nodes : Graph -> nat.
(** The [parallelism] attempts [Partition(g, precision).one_level()] run
    at a level on graph [g]. *)
Variable attempts : nat -> Graph -> list (Attempt Graph).

Definition winner (level : nat) (g : Graph) : option (Attempt Graph) :=
  let ps := attempts level g in ps !! best_attempt (modularity <$> ps).

(** The [do { ... } while (improvement)] loop, run for at most [fuel]
    levels ([None]: not finished within [fuel]); returns the final
    [n2c] and the number of levels run. A missing winner
    ([parallelism = 0]) reads [improvements[0]] out of range. *)
Fixpoint louvain_loop (fuel level : nat) (g : Graph) (n2c : list Z)
    : option (outcome (list Z * nat)) :=
  match fuel with
  | O => None
  | S fuel' =>
      match winner level g with
      | None => Some Undefined
      | Some w =>
          match renumber_communities n2c (a_n2c w) with
          | Ok n2c' =>
              if improved w then louvain_loop fuel' (S level) (aggregated w) n2c'
              else Some (Ok (n2c', S level))
          | OutOfRange => Some OutOfRange
          | Undefined => Some Undefined
          end
      end
  end.

Definition evaluateGraph (fuel : nat) (graph : Graph)
    : option (outcome (list (list Z))) :=
  match louvain_loop fuel 0 graph (seqZ 0 (Z.of_nat (nb_nodes graph))) with
  | None => None
  | Some (Ok (n2c, _)) => Some (build_result n2c)
  | Some OutOfRange => Some OutOfRange
  | Some Undefined => Some Undefined
  end.

(** The state at the start of level [level + k] if the loop kept going. *)
Fixpoint state_from (k level : nat) (g : Graph) (n2c : list Z)
    : option (Graph * list Z) :=
  match k with
  | O => Some (g, n2c)
  | S k' =>
      match winner level g with
      | Some w =>
          match renumber_communities n2c (a_n2c w) with
          | Ok n2c' => state_from k' (S level) (aggregated w) n2c'
          | _ => None
          end
      | None => None
      end
  end.

End LouvainLoop.

(* ------------------------------------------------------------------ *)
(** ** Concrete Louvain runs *)

(** A one-vertex graph whose single attempt keeps the vertex on its own. *)
Definition one_node (_ : unit) : nat := 1.
Definition one_node_attempts (_ : nat) (_ : unit) : list (Attempt unit) :=
  [mkAttempt false 0%Q [0] tt].

(** Graphs given by their number of vertices. On 4 vertices the level's
    attempt puts vertices 0, 2 into community 2 and 1, 3 into community 0
    (communities 1 and 3 stay empty) and improves; on the aggregated
    2-vertex graph the attempt swaps the two labels and does not improve. *)
Definition nodes_of (g : nat) : nat := g.
Definition pairs_attempts (_ : nat) (g : nat) : list (Attempt nat) :=
  match g with
  | 4%nat => [mkAttempt true (1#2)%Q [2; 0; 2; 0] 2%nat]
  | 2%nat => [mkAttempt false (1#4)%Q [1; 0] 2%nat]
  | _ => []
  end.

(** Three attempts, the first two tied on the highest modularity. *)
Definition tie_attempts (_ : nat) (_ : unit) : list (Attempt unit) :=
  [mkAttempt false 1%Q [0] tt; mkAttempt true 1%Q [0] tt; mkAttempt true (1#2)%Q [0] tt].

(* ================================================================== *)
(** * Proofs *)

(* ------------------------------------------------------------------ *)
(** ** Vector access *)

Lemma vec_get_lookup {A} (v : list A) (i : nat) x :
  v !! i = Some x -> vec_get v (Z.of_nat i) = Ok x.
Proof.
  intros H. unfold vec_get. rewrite decide_True by lia.
  rewrite Nat2Z.id, H. reflexivity.
Qed.

Lemma vec_get_negative {A} (v : list A) i : i < 0 -> vec_get v i = Undefined.
Proof. intros H. unfold vec_get. rewrite decide_False by lia. reflexivity. Qed.

Lemma vec_set_negative {A} (v : list A) i x : i < 0 -> vec_set v i x = Undefined.
Proof. intros H. unfold vec_set. rewrite decide_False by lia. reflexivity. Qed.

(** The bounds check of the four accessors rejects every index at or
    above the width. *)
Lemma accessors_throw_at_or_above_width {V W} (p : VertexInfo V W) i (l : W) (c : V) :
  _borderCount p <= i ->
  setBorderSPLength p i l = OutOfRange /\ getBorderSPLength p i = OutOfRange /\
  setBorderSPCount p i c = OutOfRange /\ getBorderSPCount p i = OutOfRange.
Proof.
  intros H. unfold setBorderSPLength, getBorderSPLength, setBorderSPCount,
    getBorderSPCount. rewrite !decide_False by lia. repeat split.
Qed.

(* ------------------------------------------------------------------ *)
(** ** [compare] *)

Lemma compare_from_interleaved k (i : nat) (p o : Profile) n :
  length (_borderSPCount p) = n -> length (_borderSPCount o) = n ->
  length (_borderSPLength p) = n -> length (_borderSPLength o) = n ->
  (i + k = n)%nat ->
  compare_from k (Z.of_nat i) p o =
  Ok (first_nonzero (interleaved_diffs (drop i (_borderSPCount p))
        (drop i (_borderSPCount o)) (drop i (_borderSPLength p))
        (drop i (_borderSPLength o)))).
Proof.
  intros Hc Hc' Hl Hl'. revert i.
  induction k as [|k IH]; intros i Hi; simpl.
  - rewrite !drop_ge by lia. reflexivity.
  - destruct (lookup_lt_is_Some_2 (_borderSPCount p) i) as [c Ec]; [lia|].
    destruct (lookup_lt_is_Some_2 (_borderSPCount o) i) as [c' Ec']; [lia|].
    destruct (lookup_lt_is_Some_2 (_borderSPLength p) i) as [l El]; [lia|].
    destruct (lookup_lt_is_Some_2 (_borderSPLength o) i) as [l' El']; [lia|].
    rewrite (vec_get_lookup _ _ _ Ec), (vec_get_lookup _ _ _ Ec'); cbn.
    rewrite (drop_S _ _ _ Ec), (drop_S _ _ _ Ec'), (drop_S _ _ _ El),
      (drop_S _ _ _ El'); cbn.
    destruct (decide (c - c' <> 0)); [reflexivity|].
    rewrite (vec_get_lookup _ _ _ El), (vec_get_lookup _ _ _ El'); cbn.
    destruct (decide (l - l' <> 0)); [reflexivity|].
    replace (Z.of_nat i + 1) with (Z.of_nat (S i)) by lia.
    apply IH. lia.
Qed.

(** [compare] returns the first non-zero entry of the interleaved
    differences. *)
Lemma compare_interleaved (p o : Profile) :
  wf p -> wf o -> _borderCount p = _borderCount o ->
  compare p o = Ok (first_nonzero (interleaved_diffs (_borderSPCount p)
    (_borderSPCount o) (_borderSPLength p) (_borderSPLength o))).
Proof.
  intros (Hp & Hlp & Hcp) (Ho & Hlo & Hco) Heq. unfold compare.
  rewrite <- (drop_0 (_borderSPCount p)), <- (drop_0 (_borderSPCount o)),
    <- (drop_0 (_borderSPLength p)), <- (drop_0 (_borderSPLength o)).
  apply (compare_from_interleaved _ 0 p o (Z.to_nat (_borderCount p)));
    rewrite ?Heq; lia.
Qed.

Lemma interleaved_diffs_swap cs cs' ls ls' :
  interleaved_diffs cs' cs ls' ls = Z.opp <$> interleaved_diffs cs cs' ls ls'.
Proof.
  revert cs' ls ls'.
  induction cs as [|c cs IH]; intros [|c' cs'] [|l ls] [|l' ls']; try reflexivity.
  cbn. rewrite IH. f_equal; [lia|f_equal; lia].
Qed.

Lemma first_nonzero_opp l : first_nonzero (Z.opp <$> l) = - first_nonzero l.
Proof.
  induction l as [|x l IH]; cbn; [reflexivity|].
  destruct (decide (- x <> 0)), (decide (x <> 0)); lia.
Qed.

Lemma first_nonzero_self cs ls : first_nonzero (interleaved_diffs cs cs ls ls) = 0.
Proof.
  revert ls. induction cs as [|c cs IH]; intros [|l ls]; cbn; try reflexivity.
  rewrite !decide_False by lia. apply IH.
Qed.

(** Two width-2 profiles on which the interleaved scan and the
    counts-first scan disagree. *)
Definition cmp_P : Profile := mkVertexInfo 2 [5; 0] [0; 1].
Definition cmp_Q : Profile := mkVertexInfo 2 [0; 0] [0; 0].

(** C1 (counterexample): a count difference at index 1 does not take
    priority over the length difference at index 0: [compare] returns the
    length difference 5, the counts-first order would give the count
    difference 1. *)
Lemma compare_counts_first_counterexample :
  wf cmp_P /\ wf cmp_Q /\ _borderCount cmp_P = _borderCount cmp_Q /\
  compare cmp_P cmp_Q = Ok 5 /\ compare_counts_first cmp_P cmp_Q = 1 /\
  compare cmp_P cmp_Q <> Ok (compare_counts_first cmp_P cmp_Q).
Proof. vm_compute. repeat split; congruence. Qed.

(** C1 (amended): for profiles of equal width, [p.compare(q)] scans the
    border indices in order and, at each index, tests the count difference
    first and then the length difference; it returns the first non-zero
    difference met in this interleaved order, and 0 if all tie. *)
Theorem compare_first_nonzero_interleaved (p q : Profile) :
  wf p -> wf q -> _borderCount p = _borderCount q ->
  compare p q = Ok (first_nonzero (interleaved_diffs (_borderSPCount p)
    (_borderSPCount q) (_borderSPLength p) (_borderSPLength q))).
Proof. apply compare_interleaved. Qed.

Lemma compare_first_nonzero_interleaved_witness :
  (wf cmp_P /\ wf cmp_Q /\ _borderCount cmp_P = _borderCount cmp_Q) /\
  compare cmp_P cmp_Q = Ok (first_nonzero (interleaved_diffs (_borderSPCount cmp_P)
    (_borderSPCount cmp_Q) (_borderSPLength cmp_P) (_borderSPLength cmp_Q))).
Proof.
  assert (H : wf cmp_P /\ wf cmp_Q /\ _borderCount cmp_P = _borderCount cmp_Q)
    by (vm_compute; repeat split; congruence).
  split; [exact H|].
  destruct H as (H1 & H2 & H3).
  exact (compare_first_nonzero_interleaved cmp_P cmp_Q H1 H2 H3).
Defined.

(** At [V = W = Z] the generic [compare] is the [compare] of [Profile]. *)
Lemma compare_gen_Z_from k i (p o : Profile) :
  compare_from k i p o =
  compare_gen_from 0 Z.sub (fun x => x) Z.sub (fun x => bool_decide (x <> 0)) k i p o.
Proof.
  revert i. induction k as [|k IH]; intros i; cbn; [done|].
  destruct (vec_get (_borderSPCount p) i) as [c| |]; cbn; [|done|done].
  destruct (vec_get (_borderSPCount o) i) as [c'| |]; cbn; [|done|done].
  destruct (decide (c - c' <> 0)) as [H|H].
  - by rewrite bool_decide_true.
  - rewrite bool_decide_false by done. cbn.
    destruct (vec_get (_borderSPLength p) i) as [l| |]; cbn; [|done|done].
    destruct (vec_get (_borderSPLength o) i) as [l'| |]; cbn; [|done|done].
    destruct (decide (l - l' <> 0)) as [H'|H'].
    + by rewrite bool_decide_true.
    + rewrite bool_decide_false by done. apply IH.
Qed.

(** C8 (defect): with [V = uint32_t] and [W = double], [compare] takes the
    count difference in [uint32_t]: for counts [0] and [1],
    [p.compare(q)] is [0 - 1] wrapped to [4294967295] and [q.compare(p)] is
    [1]. Both are positive, so [p > q] and [q > p] both hold and
    [p.compare(q) <> - q.compare(p)]. Reflexivity holds: each profile
    compares equal to itself. *)
Theorem compare_u32_double_not_antisymmetric :
  wf cnt_P /\ wf cnt_Q /\ _borderCount cnt_P = _borderCount cnt_Q /\
  compare_u32_double cnt_P cnt_Q = Ok (u32_to_double 4294967295) /\
  compare_u32_double cnt_Q cnt_P = Ok (u32_to_double 1) /\
  PrimFloat.ltb 0%float (u32_to_double 4294967295) = true /\
  PrimFloat.ltb 0%float (u32_to_double 1) = true /\
  compare_u32_double cnt_P cnt_Q <> Ok (PrimFloat.opp (u32_to_double 1)) /\
  compare_u32_double cnt_P cnt_P = Ok 0%float /\ compare_u32_double cnt_Q cnt_Q = Ok 0%float.
Proof.
  assert (E : compare_u32_double cnt_P cnt_Q = Ok (u32_to_double 4294967295))
    by (vm_compute; reflexivity).
  split; [vm_compute; repeat split; congruence|].
  split; [vm_compute; repeat split; congruence|].
  split; [reflexivity|].
  split; [exact E|].
  split; [vm_compute; reflexivity|].
  split; [vm_compute; reflexivity|].
  split; [vm_compute; reflexivity|].
  split; [|split; vm_compute; reflexivity].
  rewrite E. intros H.
  assert (F : match @Ok float (u32_to_double 4294967295) with
              | Ok x => PrimFloat.eqb x (PrimFloat.opp (u32_to_double 1))
              | _ => true
              end = false) by (vm_compute; reflexivity).
  rewrite H in F. vm_compute in F. discriminate.
Qed.

(** C2 (defect): the accessors guard only [storeIndex < _borderCount]; a
    negative index passes the guard and reaches [std::vector::operator[]],
    which is undefined behaviour, not an [std::out_of_range] signal.
    Indices [2] and [3] on the width-2 profile are rejected as promised. *)
Theorem accessors_negative_index_not_rejected :
  let p := VertexInfo_new 2 in
  setBorderSPLength p (-1) 7 = Undefined /\ getBorderSPLength p (-1) = Undefined /\
  setBorderSPCount p (-1) 7 = Undefined /\ getBorderSPCount p (-1) = Undefined /\
  setBorderSPLength p 2 7 = OutOfRange /\ getBorderSPLength p 3 = OutOfRange /\
  setBorderSPCount p 2 7 = OutOfRange /\ getBorderSPCount p 3 = OutOfRange.
Proof.
  cbn zeta.
  destruct (accessors_throw_at_or_above_width (VertexInfo_new 2) 2 7 7) as (A & _ & B & _);
    [reflexivity|].
  destruct (accessors_throw_at_or_above_width (VertexInfo_new 2) 3 7 7) as (_ & C & _ & D);
    [discriminate|].
  unfold setBorderSPLength, getBorderSPLength, setBorderSPCount, getBorderSPCount.
  cbn [_borderCount VertexInfo_new].
  rewrite !decide_True by lia.
  rewrite !vec_get_negative, !vec_set_negative by lia.
  repeat split; assumption.
Qed.

(* ------------------------------------------------------------------ *)
(** ** Element-wise loops *)

Lemma imap_id_on {A} (f : nat -> A -> A) (l : list A) :
  (forall j x, l !! j = Some x -> f j x = x) -> imap f l = l.
Proof.
  intros H. apply list_eq. intros j. rewrite list_lookup_imap.
  destruct (l !! j) eqn:E; cbn; [by rewrite H|done].
Qed.

Lemma vec_set_lookup {A} (v : list A) (i : nat) x :
  (i < length v)%nat -> vec_set v (Z.of_nat i) x = Ok (<[i := x]> v).
Proof.
  intros H. unfold vec_set. rewrite decide_True by lia. rewrite Nat2Z.id.
  rewrite decide_True by lia. reflexivity.
Qed.

Lemma insert_as_alter {A} (v : list A) i x (f : A -> A) :
  v !! i = Some x -> <[i := f x]> v = alter f i v.
Proof.
  intros H. apply list_eq. intros j. destruct (decide (i = j)) as [<-|Hne].
  - assert (Hi : (i < length v)%nat) by (apply lookup_lt_is_Some_1; rewrite H; by eexists).
    rewrite list_lookup_alter_eq, H, list_lookup_insert_eq by exact Hi. done.
  - rewrite list_lookup_alter_ne, list_lookup_insert_ne; done.
Qed.

Section PointwiseLoop.
Context {V W : Type}.
Variable body : Z -> VertexInfo V W -> outcome (VertexInfo V W).
Variable gl : nat -> W -> W.
Variable gc : nat -> V -> V.
Variable n : nat.
(** At an index in range, the body updates exactly that index. *)
Hypothesis body_pointwise : forall j s, (j < n)%nat ->
  length (_borderSPLength s) = n -> length (_borderSPCount s) = n ->
  body (Z.of_nat j) s =
  Ok (mkVertexInfo (_borderCount s) (alter (gl j) j (_borderSPLength s))
        (alter (gc j) j (_borderSPCount s))).

Lemma for_range_pointwise k i s :
  length (_borderSPLength s) = n -> length (_borderSPCount s) = n -> (i + k <= n)%nat ->
  for_range k (Z.of_nat i) body s =
  Ok (mkVertexInfo (_borderCount s)
        (imap (fun j x => if decide (i <= j < i + k)%nat then gl j x else x)
           (_borderSPLength s))
        (imap (fun j x => if decide (i <= j < i + k)%nat then gc j x else x)
           (_borderSPCount s))).
Proof.
  revert i s. induction k as [|k IH]; intros i s Hl Hc Hk; cbn.
  - rewrite !imap_id_on by (intros; by rewrite decide_False by lia).
    by destruct s.
  - rewrite body_pointwise by lia. cbn.
    replace (Z.of_nat i + 1) with (Z.of_nat (S i)) by lia.
    rewrite IH; cbn; rewrite ?length_alter; try lia.
    do 2 f_equal; apply list_eq; intros j; rewrite !list_lookup_imap;
      (destruct (decide (i = j)) as [<-|Hne];
       [rewrite list_lookup_alter_eq | rewrite list_lookup_alter_ne by done]);
      destruct (_ !! _); cbn; try done;
      repeat destruct decide; try lia; done.
Qed.

End PointwiseLoop.

Lemma elementwise_ok {V W} (fl : Z -> W -> outcome W) (fc : Z -> V -> outcome V)
    (gl : nat -> W -> W) (gc : nat -> V -> V) (p : VertexInfo V W) :
  wf p ->
  (forall j x, (j < Z.to_nat (_borderCount p))%nat -> fl (Z.of_nat j) x = Ok (gl j x)) ->
  (forall j x, (j < Z.to_nat (_borderCount p))%nat -> fc (Z.of_nat j) x = Ok (gc j x)) ->
  elementwise fl fc p =
  Ok (mkVertexInfo (_borderCount p) (imap gl (_borderSPLength p))
        (imap gc (_borderSPCount p))).
Proof.
  intros (Hn & Hl & Hc) Hfl Hfc. unfold elementwise.
  change 0 with (Z.of_nat 0).
  rewrite (for_range_pointwise _ gl gc (Z.to_nat (_borderCount p))); try lia.
  - do 2 f_equal; apply list_eq; intros j; rewrite !list_lookup_imap;
      destruct (_ !! j) eqn:E; cbn; try done;
      apply lookup_lt_Some in E; rewrite decide_True by lia; done.
  - intros j s Hj Hls Hcs. unfold upd_length, upd_count.
    destruct (lookup_lt_is_Some_2 (_borderSPLength s) j) as [x Ex]; [lia|].
    destruct (lookup_lt_is_Some_2 (_borderSPCount s) j) as [y Ey]; [lia|].
    rewrite (vec_get_lookup _ _ _ Ex); cbn. rewrite Hfl by lia; cbn.
    rewrite vec_set_lookup by lia; cbn.
    rewrite (vec_get_lookup _ _ _ Ey); cbn. rewrite Hfc by lia; cbn.
    rewrite vec_set_lookup by lia; cbn.
    by rewrite (insert_as_alter _ _ _ _ Ex), (insert_as_alter _ _ _ _ Ey).
Qed.

Lemma alter_id_list {A} (l : list A) j : alter (fun x => x) j l = l.
Proof.
  apply list_eq. intros i. destruct (decide (j = i)) as [<-|Hne].
  - rewrite list_lookup_alter_eq. by destruct (l !! j).
  - by rewrite list_lookup_alter_ne.
Qed.

Lemma bind_not_oor {A B} (m : outcome A) (f : A -> outcome B) :
  m <> OutOfRange -> (forall a, f a <> OutOfRange) -> m ≫= f <> OutOfRange.
Proof. destruct m; cbn; auto. Qed.

Lemma vec_get_not_oor {A} (v : list A) i : vec_get v i <> OutOfRange.
Proof. unfold vec_get. repeat case_match; discriminate. Qed.

Lemma vec_set_not_oor {A} (v : list A) i x : vec_set v i x <> OutOfRange.
Proof. unfold vec_set. repeat case_match; discriminate. Qed.

Lemma for_range_not_oor {St} k i (body : Z -> St -> outcome St) s :
  (forall j s, body j s <> OutOfRange) -> for_range k i body s <> OutOfRange.
Proof.
  intros Hb. revert i s. induction k as [|k IH]; intros i s; cbn; [discriminate|].
  apply bind_not_oor; auto.
Qed.

Lemma for_range_preserves {St} (P : St -> Prop) k i (body : Z -> St -> outcome St) s s' :
  (forall j t t', P t -> body j t = Ok t' -> P t') -> P s ->
  for_range k i body s = Ok s' -> P s'.
Proof.
  intros Hb. revert i s. induction k as [|k IH]; intros i s Hs; cbn.
  - congruence.
  - destruct (body i s) eqn:E; cbn; try discriminate. eauto.
Qed.

Lemma elementwise_not_oor {V W} (fl : Z -> W -> outcome W) (fc : Z -> V -> outcome V) p :
  (forall j x, fl j x <> OutOfRange) -> (forall j x, fc j x <> OutOfRange) ->
  elementwise fl fc p <> OutOfRange.
Proof.
  intros Hl Hc. apply for_range_not_oor. intros j s.
  unfold upd_length, upd_count.
  apply bind_not_oor; [|intros s'].
  - repeat (apply bind_not_oor; [auto using vec_get_not_oor, vec_set_not_oor|intros ?]).
    discriminate.
  - repeat (apply bind_not_oor; [auto using vec_get_not_oor, vec_set_not_oor|intros ?]).
    discriminate.
Qed.

Lemma elementwise_borderCount {V W} (fl : Z -> W -> outcome W) (fc : Z -> V -> outcome V) p r :
  elementwise fl fc p = Ok r -> _borderCount r = _borderCount p.
Proof.
  apply (for_range_preserves (fun s => _borderCount s = _borderCount p)); [|done].
  intros j t t' Ht. unfold upd_length, upd_count.
  destruct (vec_get (_borderSPLength t) j); cbn; try discriminate.
  destruct (fl j _); cbn; try discriminate.
  destruct (vec_set _ _ _); cbn; try discriminate.
  destruct (vec_get _ _); cbn; try discriminate.
  destruct (fc j _); cbn; try discriminate.
  destruct (vec_set _ _ _); cbn; try discriminate.
  intros [= <-]. done.
Qed.

(** An in-place operator with another profile at least as wide reads only
    [other]'s first [_borderCount] entries. *)
Lemma binop_assign_ok (f : Z -> Z -> Z) (p q : Profile) :
  wf p -> wf q -> _borderCount p <= _borderCount q ->
  elementwise (fun i x => y ← vec_get (_borderSPLength q) i; Ok (f x y))
              (fun i x => y ← vec_get (_borderSPCount q) i; Ok (f x y)) p =
  Ok (mkVertexInfo (_borderCount p) (zip_with f (_borderSPLength p) (_borderSPLength q))
        (zip_with f (_borderSPCount p) (_borderSPCount q))).
Proof.
  intros Hp Hq Hle.
  pose proof Hp as (Hn & Hl & Hc). destruct Hq as (Hn' & Hl' & Hc').
  rewrite (elementwise_ok _ _
    (fun j x => match _borderSPLength q !! j with Some y => f x y | None => x end)
    (fun j x => match _borderSPCount q !! j with Some y => f x y | None => x end) p Hp).
  - do 2 f_equal; apply list_eq; intros j;
      rewrite list_lookup_imap, lookup_zip_with.
    + destruct (_borderSPLength p !! j) eqn:E; cbn; [|done].
      apply lookup_lt_Some in E.
      destruct (lookup_lt_is_Some_2 (_borderSPLength q) j) as [y Ey]; [lia|].
      by rewrite Ey.
    + destruct (_borderSPCount p !! j) eqn:E; cbn; [|done].
      apply lookup_lt_Some in E.
      destruct (lookup_lt_is_Some_2 (_borderSPCount q) j) as [y Ey]; [lia|].
      by rewrite Ey.
  - intros j x Hj.
    destruct (lookup_lt_is_Some_2 (_borderSPLength q) j) as [y Ey]; [lia|].
    rewrite (vec_get_lookup _ _ _ Ey), Ey. done.
  - intros j x Hj.
    destruct (lookup_lt_is_Some_2 (_borderSPCount q) j) as [y Ey]; [lia|].
    rewrite (vec_get_lookup _ _ _ Ey), Ey. done.
Qed.

(* ------------------------------------------------------------------ *)
(** ** [normalize] *)

Lemma foldl_min_sel_shift x t d :
  foldl min_sel (x - d) ((fun y => y - d) <$> t) = foldl min_sel x t - d.
Proof.
  revert x. induction t as [|y t IH]; intros x; cbn; [done|].
  rewrite <- IH. f_equal. unfold min_sel.
  destruct (decide (y - d < x - d)), (decide (y < x)); lia.
Qed.

Lemma normalize_ok (p : Profile) m :
  wf p -> getMinBorderSPLength p = Ok m ->
  normalize p = Ok (mkVertexInfo (_borderCount p)
                      ((fun x => x - m) <$> _borderSPLength p) (_borderSPCount p)).
Proof.
  intros (Hn & Hl & Hc) Hm. unfold normalize. rewrite Hm. cbn.
  change 0 with (Z.of_nat 0).
  rewrite (for_range_pointwise _ (fun _ x => x - m) (fun _ y => y)
             (Z.to_nat (_borderCount p))); try lia.
  - do 2 f_equal.
    + apply list_eq. intros j. rewrite list_lookup_imap, list_lookup_fmap.
      destruct (_ !! j) eqn:E; cbn; [|done].
      apply lookup_lt_Some in E. by rewrite decide_True by lia.
    + apply imap_id_on. intros. by destruct decide.
  - intros j s Hj Hls Hcs. unfold upd_length.
    destruct (lookup_lt_is_Some_2 (_borderSPLength s) j) as [x Ex]; [lia|].
    rewrite (vec_get_lookup _ _ _ Ex); cbn.
    rewrite vec_set_lookup by lia; cbn.
    by rewrite (insert_as_alter _ _ _ (fun x => x - m) Ex), alter_id_list.
Qed.

Lemma getMin_ok (p : Profile) : wf p -> exists m, getMinBorderSPLength p = Ok m.
Proof.
  intros (Hn & Hl & Hc). unfold getMinBorderSPLength.
  destruct decide; [eauto|].
  destruct (_borderSPLength p) as [|x t] eqn:E; cbn in *; [lia|eauto].
Qed.

(** C7: after [p.normalize()] the minimum length is 0, and normalizing
    again changes nothing. *)
Theorem normalize_min_zero_idempotent (p : Profile) :
  wf p ->
  exists p', normalize p = Ok p' /\ getMinBorderSPLength p' = Ok 0 /\
             normalize p' = Ok p'.
Proof.
  intros Hp. destruct (getMin_ok p Hp) as [m Hm].
  set (p' := mkVertexInfo (_borderCount p) ((fun x => x - m) <$> _borderSPLength p)
                (_borderSPCount p)).
  assert (Hwf' : wf p').
  { destruct Hp as (? & ? & ?). unfold wf, p'; cbn. by rewrite length_fmap. }
  assert (Hmin' : getMinBorderSPLength p' = Ok 0).
  { unfold getMinBorderSPLength in *; cbn.
    destruct decide as [H0|H0]; [done|].
    destruct Hp as (Hn & Hl & Hc).
    destruct (_borderSPLength p) as [|x t]; cbn in *; [lia|].
    injection Hm as <-. rewrite foldl_min_sel_shift. f_equal. lia. }
  exists p'. split; [by apply normalize_ok|]. split; [done|].
  rewrite (normalize_ok p' 0 Hwf' Hmin'). unfold p'; cbn. do 2 f_equal.
  apply list_eq. intros j. rewrite !list_lookup_fmap.
  destruct (_ !! j); cbn; [f_equal; lia|done].
Qed.

Lemma normalize_min_zero_idempotent_witness :
  exists p', normalize cmp_P = Ok p' /\ getMinBorderSPLength p' = Ok 0 /\
             normalize p' = Ok p'.
Proof.
  apply normalize_min_zero_idempotent. vm_compute. repeat split; congruence.
Defined.

(* ------------------------------------------------------------------ *)
(** ** [squaredDistance] proofs *)

Section SquaredDistanceProofs.
Context {V W D : Type}.
Variables (zeroW : W) (subW : W -> W -> W) (subV : V -> V -> V).
Variables (powW : W -> D) (powV : V -> D) (addW_D : W -> D -> W).

Lemma squaredDistance_from k (i : nat) (p q : VertexInfo V W) acc :
  length (_borderSPLength p) = (i + k)%nat -> length (_borderSPCount p) = (i + k)%nat ->
  (i + k <= length (_borderSPLength q))%nat -> (i + k <= length (_borderSPCount q))%nat ->
  for_range k (Z.of_nat i)
    (fun i sqDistance =>
       l ← vec_get (_borderSPLength p) i;
       l' ← vec_get (_borderSPLength q) i;
       let sqDistance := addW_D sqDistance (powW (subW l l')) in
       c ← vec_get (_borderSPCount p) i;
       c' ← vec_get (_borderSPCount q) i;
       Ok (addW_D sqDistance (powV (subV c c')))) acc =
  Ok (sqd_acc subW subV powW powV addW_D acc (drop i (_borderSPLength p))
        (drop i (_borderSPLength q)) (drop i (_borderSPCount p)) (drop i (_borderSPCount q))).
Proof.
  revert i acc. induction k as [|k IH]; intros i acc Hl Hc Hl' Hc'; cbn.
  - rewrite (drop_ge (_borderSPLength p)), (drop_ge (_borderSPCount p)) by lia.
    by destruct (drop i (_borderSPLength q)), (drop i (_borderSPCount q)).
  - destruct (lookup_lt_is_Some_2 (_borderSPLength p) i) as [l El]; [lia|].
    destruct (lookup_lt_is_Some_2 (_borderSPLength q) i) as [l' El']; [lia|].
    destruct (lookup_lt_is_Some_2 (_borderSPCount p) i) as [c Ec]; [lia|].
    destruct (lookup_lt_is_Some_2 (_borderSPCount q) i) as [c' Ec']; [lia|].
    rewrite (vec_get_lookup _ _ _ El), (vec_get_lookup _ _ _ El'),
      (vec_get_lookup _ _ _ Ec), (vec_get_lookup _ _ _ Ec'); cbn.
    rewrite (drop_S _ _ _ El), (drop_S _ _ _ El'), (drop_S _ _ _ Ec),
      (drop_S _ _ _ Ec'); cbn.
    replace (Z.of_nat i + 1) with (Z.of_nat (S i)) by lia.
    apply IH; lia.
Qed.

(** [squaredDistance] runs over [p]'s indices and, with an [other] at least
    as wide, equals the list accumulation. *)
Lemma squaredDistance_acc (p q : VertexInfo V W) :
  wf p -> wf q -> _borderCount p <= _borderCount q ->
  squaredDistance zeroW subW subV powW powV addW_D p q =
  Ok (sqd_acc subW subV powW powV addW_D zeroW (_borderSPLength p) (_borderSPLength q)
        (_borderSPCount p) (_borderSPCount q)).
Proof.
  intros (Hn & Hl & Hc) (Hn' & Hl' & Hc') Hle. unfold squaredDistance.
  change 0 with (Z.of_nat 0).
  rewrite (squaredDistance_from _ 0); rewrite ?drop_0; first [done | lia].
Qed.

End SquaredDistanceProofs.

(** C3 (defect): with [V = uint32_t] and [W = double], the count
    difference [0 - 65536] is taken in [uint32_t] and wraps to
    [4294901760]; [squaredDistance] returns [4294901760^2], while computing
    the difference in [W] gives [65536^2 = 4294967296]. *)
Lemma squaredDistance_in_W_counterexample :
  wf sqd_P /\ wf sqd_Q /\ _borderCount sqd_P = _borderCount sqd_Q /\
  squaredDistance_u32_double sqd_P sqd_Q = Ok (pow2 (u32_to_double 4294901760)) /\
  sqd_all_in_W 0%float (_borderSPLength sqd_P) (_borderSPLength sqd_Q)
    (_borderSPCount sqd_P) (_borderSPCount sqd_Q) = u32_to_double 4294967296 /\
  squaredDistance_u32_double sqd_P sqd_Q <>
  Ok (sqd_all_in_W 0%float (_borderSPLength sqd_P) (_borderSPLength sqd_Q)
        (_borderSPCount sqd_P) (_borderSPCount sqd_Q)).
Proof.
  split; [vm_compute; repeat split; congruence|].
  split; [vm_compute; repeat split; congruence|].
  split; [reflexivity|].
  split; [vm_compute; reflexivity|].
  split; [vm_compute; reflexivity|].
  intros H.
  assert (E : match squaredDistance_u32_double sqd_P sqd_Q with
              | Ok x => PrimFloat.eqb x (sqd_all_in_W 0%float (_borderSPLength sqd_P)
                          (_borderSPLength sqd_Q) (_borderSPCount sqd_P)
                          (_borderSPCount sqd_Q))
              | _ => true
              end = false) by (vm_compute; reflexivity).
  rewrite H in E. vm_compute in E. discriminate.
Qed.

(** C9: no profile-profile operator checks shapes. With [p.borders() <=
    q.borders()], [+=], [-=], [*=], [+], [-], [*] loop over [p]'s indices
    only (reading [q]'s first [p.borders()] entries), keep [p]'s
    [_borderCount] and return normally; [/=] and [/] throw nothing either
    and keep the width; [squaredDistance] returns normally, summing over
    [p]'s indices only. *)
Theorem elementwise_no_shape_check (p q : Profile) :
  wf p -> wf q -> borders p <= borders q ->
  add_assign p q = Ok (mkVertexInfo (_borderCount p)
    (zip_with Z.add (_borderSPLength p) (_borderSPLength q))
    (zip_with Z.add (_borderSPCount p) (_borderSPCount q))) /\
  sub_assign p q = Ok (mkVertexInfo (_borderCount p)
    (zip_with Z.sub (_borderSPLength p) (_borderSPLength q))
    (zip_with Z.sub (_borderSPCount p) (_borderSPCount q))) /\
  mul_assign p q = Ok (mkVertexInfo (_borderCount p)
    (zip_with Z.mul (_borderSPLength p) (_borderSPLength q))
    (zip_with Z.mul (_borderSPCount p) (_borderSPCount q))) /\
  add p q = add_assign p q /\ sub p q = sub_assign p q /\ mul p q = mul_assign p q /\
  div_assign p q <> OutOfRange /\ div p q <> OutOfRange /\
  (forall r, div_assign p q = Ok r -> _borderCount r = _borderCount p) /\
  squaredDistance_exact p q =
  Ok (sqd_acc Z.sub Z.sub sq sq Z.add 0 (_borderSPLength p) (_borderSPLength q)
        (_borderSPCount p) (_borderSPCount q)).
Proof.
  intros Hp Hq Hle. unfold borders in Hle.
  assert (Hdiv : div_assign p q <> OutOfRange).
  { apply elementwise_not_oor; intros j x;
      apply bind_not_oor; auto using vec_get_not_oor;
      intros y; unfold int_div; destruct decide; discriminate. }
  split; [by apply binop_assign_ok|].
  split; [by apply binop_assign_ok|].
  split; [by apply binop_assign_ok|].
  do 3 (split; [reflexivity|]).
  split; [exact Hdiv|]. split; [exact Hdiv|].
  split; [intros r; apply elementwise_borderCount|].
  by apply squaredDistance_acc.
Qed.

Lemma elementwise_no_shape_check_witness :
  add_assign cmp_P wide_Q = Ok (mkVertexInfo 2
    (zip_with Z.add [5; 0] [1; 2; 3]) (zip_with Z.add [0; 1] [4; 5; 6])) /\
  add cmp_P wide_Q = add_assign cmp_P wide_Q.
Proof.
  destruct (elementwise_no_shape_check cmp_P wide_Q) as (H1 & _ & _ & H4 & _);
    [vm_compute; repeat split; congruence | vm_compute; repeat split; congruence
    | vm_compute; congruence | ].
  split; [exact H1 | exact H4].
Defined.

(* ------------------------------------------------------------------ *)
(** ** [renumber_communities] *)

Lemma vec_get_Z {A} (v : list A) (i : Z) x :
  0 <= i -> v !! Z.to_nat i = Some x -> vec_get v i = Ok x.
Proof. intros H E. unfold vec_get. rewrite decide_True by done. by rewrite E. Qed.

Lemma vec_set_Z {A} (v : list A) (i : Z) x :
  0 <= i < Z.of_nat (length v) -> vec_set v i x = Ok (<[Z.to_nat i := x]> v).
Proof.
  intros H. unfold vec_set. rewrite decide_True by lia. rewrite decide_True by lia.
  done.
Qed.

(** After the counting pass, an entry differs from its initial value
    exactly when some node belongs to that community. *)
Lemma count_members_ok r0 n2c :
  Forall (fun c => 0 <= c < Z.of_nat (length r0)) n2c ->
  exists r, count_members r0 n2c = Ok r /\ length r = length r0 /\
    forall c x0, r0 !! c = Some x0 ->
      exists x, r !! c = Some x /\ x0 <= x /\ (x = x0 <-> Z.of_nat c ∉ n2c).
Proof.
  revert r0. induction n2c as [|c0 t IH]; intros r0 Hall; cbn.
  - exists r0. split_and!; [done|done|]. intros c x0 E. exists x0.
    split_and!; [done|lia|]. split; [intros _; apply not_elem_of_nil|done].
  - apply Forall_cons in Hall as [Hc0 Ht].
    destruct (lookup_lt_is_Some_2 r0 (Z.to_nat c0)) as [y Ey]; [lia|].
    rewrite (vec_get_Z _ _ _ (proj1 Hc0) Ey); cbn.
    rewrite vec_set_Z by lia; cbn.
    destruct (IH (<[Z.to_nat c0 := y + 1]> r0)) as (r & Er & Hlen & Hr).
    { rewrite length_insert. done. }
    exists r. split_and!; [done|by rewrite Hlen, length_insert|].
    intros c x0 E.
    destruct (decide (c = Z.to_nat c0)) as [->|Hne].
    + rewrite E in Ey. injection Ey as ->.
      destruct (Hr (Z.to_nat c0) (y + 1)) as (x & Ex & Hle & Hiff).
      { apply list_lookup_insert_eq. apply lookup_lt_Some in E. done. }
      exists x. split_and!; [done|lia|]. split; [lia|].
      intros Hn. exfalso. apply Hn. rewrite Z2Nat.id by lia. left.
    + destruct (Hr c x0) as (x & Ex & Hle & Hiff).
      { rewrite list_lookup_insert_ne by done. done. }
      exists x. split_and!; [done|lia|]. rewrite Hiff.
      rewrite elem_of_cons. split.
      * intros Hn [Heq|Hin]; [|done]. apply Hne. rewrite <- Heq. lia.
      * intros Hn Hin. apply Hn. by right.
Qed.

Definition nb_nonsentinel (r : list Z) : nat := length (filter (fun x => x <> -1) r).

Lemma assign_final_length f r : length (assign_final f r) = length r.
Proof.
  revert f. induction r as [|x t IH]; intros f; cbn; [done|].
  destruct decide; cbn; by rewrite IH.
Qed.

Lemma assign_final_sentinel f r c :
  0 <= f -> (assign_final f r !! c = Some (-1) <-> r !! c = Some (-1)).
Proof.
  revert f c. induction r as [|x t IH]; intros f c Hf; cbn; [done|].
  destruct decide as [Hx|Hx], c as [|c]; cbn.
  - split; intros H; injection H; lia.
  - apply IH. lia.
  - assert (x = -1) by lia. subst. done.
  - apply IH. lia.
Qed.

Lemma assign_final_range f r c y :
  assign_final f r !! c = Some y -> y = -1 \/ f <= y < f + Z.of_nat (nb_nonsentinel r).
Proof.
  unfold nb_nonsentinel. revert f c. induction r as [|x t IH]; intros f c; [done|].
  rewrite filter_cons. cbn.
  destruct (decide (x <> -1)) as [Hx|Hx], c as [|c]; cbn.
  - intros [= <-]. right. lia.
  - intros E. destruct (IH _ _ E) as [|Hr]; [by left|right; lia].
  - intros [= <-]. left. lia.
  - intros E. apply (IH _ _ E).
Qed.

Lemma assign_final_onto f r j :
  f <= j < f + Z.of_nat (nb_nonsentinel r) -> exists c, assign_final f r !! c = Some j.
Proof.
  unfold nb_nonsentinel. revert f. induction r as [|x t IH]; intros f Hj; [cbn in *; lia|].
  rewrite filter_cons in Hj. cbn.
  destruct (decide (x <> -1)) as [Hx|Hx]; cbn in Hj.
  - destruct (decide (j = f)) as [->|Hne]; [by exists 0%nat|].
    destruct (IH (f + 1)) as [c Hc]; [lia|]. by exists (S c).
  - destruct (IH f) as [c Hc]; [lia|]. by exists (S c).
Qed.

Lemma assign_final_increasing f r c1 c2 y1 y2 :
  (c1 < c2)%nat -> assign_final f r !! c1 = Some y1 -> assign_final f r !! c2 = Some y2 ->
  0 <= f -> y1 <> -1 -> y2 <> -1 -> y1 < y2.
Proof.
  revert f c1 c2. induction r as [|x t IH]; intros f c1 c2 Hc E1 E2 Hf H1 H2; cbn in *;
    [done|].
  destruct c2 as [|c2]; [lia|].
  destruct (decide (x <> -1)) as [Hx|Hx], c1 as [|c1]; cbn in *.
  - injection E1 as <-.
    destruct (assign_final_range _ _ _ _ E2); lia.
  - apply (IH (f + 1) c1 c2); auto with lia.
  - injection E1 as <-. done.
  - apply (IH f c1 c2); auto with lia.
Qed.

Lemma relabel_ok R n2c comms :
  Forall (fun a => 0 <= a < Z.of_nat (length n2c)) comms ->
  Forall (fun c => 0 <= c < Z.of_nat (length R)) n2c ->
  exists comms', relabel R n2c comms = Ok comms' /\ length comms' = length comms /\
    forall i a, comms !! i = Some a ->
      exists c y, n2c !! Z.to_nat a = Some c /\ R !! Z.to_nat c = Some y /\
                  comms' !! i = Some y.
Proof.
  intros Hcomms Hn2c. induction comms as [|a t IH]; cbn.
  - exists []. split_and!; [done|done|]. intros i a E. by rewrite lookup_nil in E.
  - apply Forall_cons in Hcomms as [Ha Ht].
    destruct (lookup_lt_is_Some_2 n2c (Z.to_nat a)) as [c Ec]; [lia|].
    assert (Hc : 0 <= c < Z.of_nat (length R)).
    { eapply (Forall_lookup_1 _ _ _ _ Hn2c Ec). }
    destruct (lookup_lt_is_Some_2 R (Z.to_nat c)) as [y Ey]; [lia|].
    rewrite (vec_get_Z _ _ _ (proj1 Ha) Ec); cbn.
    rewrite (vec_get_Z _ _ _ (proj1 Hc) Ey); cbn.
    destruct (IH Ht) as (t' & Et & Hlen & Hl). rewrite Et; cbn.
    exists (y :: t'). split_and!; [done|cbn; lia|].
    intros [|i] a' E; cbn in *.
    + injection E as <-. eauto.
    + by apply Hl.
Qed.

Lemma nb_nonsentinel_filter_seq r (P : nat -> Prop) `{forall c, Decision (P c)} s :
  (forall c x, r !! c = Some x -> (x <> -1 <-> P (s + c)%nat)) ->
  nb_nonsentinel r = length (filter P (seq s (length r))).
Proof.
  unfold nb_nonsentinel. revert s.
  induction r as [|x t IH]; intros s Hr; [done|].
  cbn [length seq]. rewrite !filter_cons.
  pose proof (Hr 0%nat x eq_refl) as H0. rewrite Nat.add_0_r in H0.
  assert (IH' : length (filter (fun x => x <> -1) t) =
                length (filter P (seq (S s) (length t)))).
  { apply IH. intros c y E. replace (S s + c)%nat with (s + S c)%nat by lia. exact (Hr (S c) y E). }
  destruct (decide (x <> -1)), (decide (P s)); cbn; try rewrite IH'; try done;
    exfalso; tauto.
Qed.

(** One renumbering step: with [n2c] mapping the current nodes to
    community ids in [0, n) and [comms] mapping original vertices to current
    nodes, [renumber_communities] succeeds; the new ids preserve the order of
    the composed community ids, lie in [0, k) with [k] the number of
    non-empty communities, and cover all of [0, k) when every current node
    has an original vertex. *)
Lemma renumber_communities_ok comms n2c :
  Forall (fun c => 0 <= c < Z.of_nat (length n2c)) n2c ->
  Forall (fun a => 0 <= a < Z.of_nat (length n2c)) comms ->
  exists comms', renumber_communities comms n2c = Ok comms' /\
    length comms' = length comms /\
    (forall i i' a a' c c' y y', comms !! i = Some a -> comms !! i' = Some a' ->
       n2c !! Z.to_nat a = Some c -> n2c !! Z.to_nat a' = Some c' ->
       comms' !! i = Some y -> comms' !! i' = Some y' -> (c < c' <-> y < y')) /\
    (forall y, y ∈ comms' -> 0 <= y < Z.of_nat (nb_communities n2c)) /\
    ((forall a, 0 <= a < Z.of_nat (length n2c) -> a ∈ comms) ->
     forall j, 0 <= j < Z.of_nat (nb_communities n2c) -> j ∈ comms').
Proof.
  intros Hn2c Hcomms. unfold renumber_communities.
  destruct (count_members_ok (replicate (length n2c) (-1)) n2c) as (r & Er & Hlen & Hr).
  { by rewrite length_replicate. }
  rewrite length_replicate in Hlen. rewrite Er; cbn.
  (* an entry of [r] is not the sentinel exactly for the used communities *)
  assert (Hused : forall c x, r !! c = Some x -> (x <> -1 <-> Z.of_nat c ∈ n2c)).
  { intros c x E.
    destruct (Hr c (-1)) as (x' & E' & _ & Hiff).
    { apply lookup_replicate_2. apply lookup_lt_Some in E. lia. }
    rewrite E in E'. injection E' as <-.
    destruct (decide (Z.of_nat c ∈ n2c)); split; intros; try done; tauto. }
  assert (HK : nb_nonsentinel r = nb_communities n2c).
  { unfold nb_communities. rewrite <- Hlen.
    apply (nb_nonsentinel_filter_seq r (fun c => Z.of_nat c ∈ n2c) 0). exact Hused. }
  set (AF := assign_final 0 r).
  assert (HAF_used : forall c y, Z.of_nat c ∈ n2c -> AF !! c = Some y -> y <> -1).
  { intros c y Hin E ->. apply (assign_final_sentinel 0 r c) in E; [|lia].
    apply (Hused _ _ E) in Hin. lia. }
  destruct (relabel_ok AF n2c comms) as (comms' & Erel & Hlen' & Hl); [done| |].
  { unfold AF. rewrite assign_final_length, Hlen. done. }
  exists comms'. split_and!; [done|done| | |].
  - intros i i' a a' c c' y y' Ea Ea' Ec Ec' Ey Ey'.
    destruct (Hl i a Ea) as (c1 & y1 & Ec1 & Ey1 & Ey1').
    destruct (Hl i' a' Ea') as (c2 & y2 & Ec2 & Ey2 & Ey2').
    rewrite Ec in Ec1. injection Ec1 as <-. rewrite Ec' in Ec2. injection Ec2 as <-.
    rewrite Ey in Ey1'. injection Ey1' as <-. rewrite Ey' in Ey2'. injection Ey2' as <-.
    assert (Hc : 0 <= c < Z.of_nat (length n2c)) by exact (Forall_lookup_1 _ _ _ _ Hn2c Ec).
    assert (Hc' : 0 <= c' < Z.of_nat (length n2c)) by exact (Forall_lookup_1 _ _ _ _ Hn2c Ec').
    assert (Hy : y <> -1).
    { apply (HAF_used (Z.to_nat c)); [|done]. rewrite Z2Nat.id by lia.
      by apply list_elem_of_lookup_2 in Ec. }
    assert (Hy' : y' <> -1).
    { apply (HAF_used (Z.to_nat c')); [|done]. rewrite Z2Nat.id by lia.
      by apply list_elem_of_lookup_2 in Ec'. }
    destruct (Z.lt_total c c') as [Hlt|[->|Hgt]].
    + split; [intros _|lia].
      apply (assign_final_increasing 0 r (Z.to_nat c) (Z.to_nat c')); auto with lia.
    + rewrite Ey1 in Ey2. injection Ey2 as ->. lia.
    + assert (y' < y); [|lia].
      apply (assign_final_increasing 0 r (Z.to_nat c') (Z.to_nat c)); auto with lia.
  - intros y Hin. apply list_elem_of_lookup_1 in Hin as [i Ei].
    destruct (lookup_lt_is_Some_2 comms i) as [a Ea].
    { rewrite <- Hlen'. apply lookup_lt_Some in Ei. done. }
    destruct (Hl i a Ea) as (c & y1 & Ec & Ey1 & Ey1').
    rewrite Ei in Ey1'. injection Ey1' as <-.
    assert (Hc : 0 <= c < Z.of_nat (length n2c)) by exact (Forall_lookup_1 _ _ _ _ Hn2c Ec).
    assert (Hy : y <> -1).
    { apply (HAF_used (Z.to_nat c)); [|done]. rewrite Z2Nat.id by lia.
      by apply list_elem_of_lookup_2 in Ec. }
    destruct (assign_final_range 0 r _ _ Ey1); [done|]. rewrite <- HK. lia.
  - intros Hsurj j Hj.
    destruct (assign_final_onto 0 r j) as [c Ec]; [rewrite HK; lia|].
    assert (Hcin : Z.of_nat c ∈ n2c).
    { destruct (lookup_lt_is_Some_2 r c) as [x Ex].
      { apply lookup_lt_Some in Ec. by rewrite assign_final_length in Ec. }
      apply (Hused c x Ex). intros ->.
      apply (assign_final_sentinel 0 r c) in Ex; [|lia].
      rewrite Ec in Ex. injection Ex. lia. }
    apply list_elem_of_lookup_1 in Hcin as [a Ea].
    assert (Ha : Z.of_nat a ∈ comms).
    { apply Hsurj. apply lookup_lt_Some in Ea. lia. }
    apply list_elem_of_lookup_1 in Ha as [i Ei].
    destruct (Hl i _ Ei) as (c1 & y & Ec1 & Ey & Ey').
    rewrite Nat2Z.id, Ea in Ec1. injection Ec1 as <-.
    rewrite Nat2Z.id in Ey. fold AF in Ec. rewrite Ec in Ey. injection Ey as <-.
    by apply list_elem_of_lookup_2 in Ey'.
Qed.

(* ------------------------------------------------------------------ *)
(** ** [build_result] *)

Lemma for_range_ind {St} (P : nat -> St -> Prop) (body : Z -> St -> outcome St) k :
  (forall j s, (j < k)%nat -> P j s -> exists s', body (Z.of_nat j) s = Ok s' /\ P (S j) s') ->
  forall s, P 0%nat s -> exists s', for_range k 0 body s = Ok s' /\ P k s'.
Proof.
  intros Hb.
  assert (G : forall k' m s, (m + k' = k)%nat -> P m s ->
            exists s', for_range k' (Z.of_nat m) body s = Ok s' /\ P k s').
  { induction k' as [|k' IH]; intros m s Hm Hs; cbn.
    - exists s. rewrite Nat.add_0_r in Hm. subst. done.
    - destruct (Hb m s ltac:(lia) Hs) as (s1 & E1 & H1).
      rewrite E1; cbn. replace (Z.of_nat m + 1) with (Z.of_nat (S m)) by lia.
      apply IH; [lia|done]. }
  intros s Hs. apply (G k 0%nat s); [lia|done].
Qed.

Lemma max_id_foldl (m : Z) l :
  let r := foldl (fun max c => if decide (c > max) then c else max) m l in
  m <= r /\ Forall (fun c => c <= r) l /\ (r = m \/ r ∈ l).
Proof.
  revert m. induction l as [|x t IH]; intros m; cbn.
  - split_and!; [lia|constructor|by left].
  - destruct (decide (x > m)) as [Hx|Hx].
    + destruct (IH x) as (H1 & H2 & H3). split_and!; [lia|constructor; [lia|done]|].
      right. destruct H3 as [->|H3]; [apply elem_of_cons; by left|apply elem_of_cons; by right].
    + destruct (IH m) as (H1 & H2 & H3). split_and!; [lia| |].
      * constructor; [|done]. destruct H3 as [->|H3]; [lia|].
        eapply Forall_forall in H2; [|exact H3]. lia.
      * destruct H3 as [->|H3]; [by left|right; apply elem_of_cons; by right].
Qed.

(** [max_id]: 0 for an empty mapping, otherwise the largest id when all
    ids are non-negative. *)
Lemma max_id_spec n2c :
  Forall (fun c => 0 <= c) n2c ->
  0 <= max_id n2c /\ Forall (fun c => c <= max_id n2c) n2c /\
  (n2c = [] -> max_id n2c = 0) /\ (n2c <> [] -> max_id n2c ∈ n2c).
Proof.
  intros Hnn. unfold max_id.
  destruct (max_id_foldl 0 n2c) as (H1 & H2 & H3).
  split_and!; [done|done| intros ->; done |].
  intros Hne. destruct H3 as [E|E]; [|done].
  destruct n2c as [|x t]; [done|]. apply Forall_cons in Hnn as [Hx _].
  apply Forall_cons in H2 as [Hx' _]. rewrite E in Hx' |- *.
  assert (x = 0) as -> by lia. apply elem_of_cons. by left.
Qed.

Lemma community_members_S n2c j c x :
  n2c !! j = Some x ->
  community_members n2c (S j) c =
  community_members n2c j c ++ (if decide (x = Z.of_nat c) then [Z.of_nat j] else []).
Proof.
  intros E. unfold community_members. rewrite seq_S, filter_app, fmap_app. f_equal.
  replace (0 + j)%nat with j by lia. rewrite filter_cons, filter_nil, E.
  destruct (decide (x = Z.of_nat c)) as [->|Hne];
    [rewrite decide_True by done|rewrite decide_False by congruence]; done.
Qed.

(** [build_result] on non-negative ids: [max_id n2c + 1] communities, the
    one with index [c] holding the vertices mapped to [c], ascending. *)
Lemma build_result_ok n2c :
  Forall (fun c => 0 <= c) n2c ->
  build_result n2c =
  Ok ((fun c => community_members n2c (length n2c) c) <$> seq 0 (Z.to_nat (max_id n2c + 1))).
Proof.
  intros Hnn. destruct (max_id_spec n2c Hnn) as (Hm0 & Hmax & _ & _).
  set (M := Z.to_nat (max_id n2c + 1)).
  unfold build_result. fold M.
  destruct (for_range_ind
    (fun j r => r = (fun c => community_members n2c j c) <$> seq 0 M)
    (fun i r => c ← vec_get n2c i; members ← vec_get r c; vec_set r c (members ++ [i]))
    (length n2c)) with (s := replicate M ([] : list Z)) as (s' & E & ->).
  - intros j r Hj ->.
    destruct (lookup_lt_is_Some_2 n2c j Hj) as [c Ec].
    assert (Hc : 0 <= c <= max_id n2c).
    { split; [exact (Forall_lookup_1 _ _ _ _ Hnn Ec)|exact (Forall_lookup_1 _ _ _ _ Hmax Ec)]. }
    rewrite (vec_get_lookup _ _ _ Ec). cbv beta iota delta [mbind outcome_bind].
    assert (Hcm : (Z.to_nat c < M)%nat) by (unfold M; lia).
    rewrite (vec_get_Z _ c (community_members n2c j (Z.to_nat c))); [cbv beta iota delta [mbind outcome_bind]| lia |].
    2:{ rewrite list_lookup_fmap, lookup_seq_lt by done. done. }
    rewrite vec_set_Z by (rewrite length_fmap, length_seq; lia).
    eexists; split; [reflexivity|].
    apply list_eq. intros d.
    destruct (decide (d = Z.to_nat c)) as [->|Hd].
    + rewrite list_lookup_insert_eq by (rewrite length_fmap, length_seq; lia).
      rewrite list_lookup_fmap, lookup_seq_lt by done. cbv beta iota delta [fmap option_fmap option_map]. rewrite Nat.add_0_l.
      rewrite (community_members_S _ _ _ c Ec), decide_True by lia. done.
    + rewrite list_lookup_insert_ne by congruence. rewrite !list_lookup_fmap.
      destruct (seq 0 M !! d) eqn:Ed; [|done]. cbv beta iota delta [fmap option_fmap option_map].
      apply lookup_seq in Ed as [-> _].
      rewrite (community_members_S _ _ _ c Ec), decide_False by lia.
      by rewrite app_nil_r.
  - apply list_eq. intros d. rewrite list_lookup_fmap.
    destruct (decide (d < M)%nat).
    + rewrite lookup_replicate_2 by done. rewrite lookup_seq_lt by done. done.
    + transitivity (@None (list Z)); [apply lookup_replicate_None; lia|].
      rewrite lookup_seq_ge by lia. done.
  - exact E.
Qed.

Lemma community_members_elem n2c n d i :
  Z.of_nat i ∈ community_members n2c n d <-> (i < n)%nat /\ n2c !! i = Some (Z.of_nat d).
Proof.
  unfold community_members. rewrite list_elem_of_fmap. split.
  - intros (i' & Ei & Hin). apply Nat2Z.inj in Ei as <-.
    apply list_elem_of_filter in Hin as [Hd Hin]. apply elem_of_seq in Hin. split; [lia|done].
  - intros [Hi Hd]. exists i. split; [done|].
    apply list_elem_of_filter. split; [done|]. apply elem_of_seq. lia.
Qed.

Lemma community_members_NoDup n2c n d : NoDup (community_members n2c n d).
Proof.
  unfold community_members. apply NoDup_fmap_2; [apply _|].
  apply NoDup_filter, NoDup_seq.
Qed.

(* ------------------------------------------------------------------ *)
(** ** The level loop *)

Section LouvainInvariant.
Context {Graph : Type}.
Variable nb_nodes : Graph -> nat.
Variable attempts : nat -> Graph -> list (Attempt Graph).
Hypothesis Hcontract :
  forall level g a, a ∈ attempts level g -> attempt_contract nb_nodes g a.

Lemma winner_elem level g w : winner attempts level g = Some w -> w ∈ attempts level g.
Proof. unfold winner. intros E. by apply list_elem_of_lookup_2 in E. Qed.

(** Loop invariant: [n2c] maps every original vertex onto the nodes
    [0, g.nb_nodes) of the current graph. *)
Lemma louvain_loop_dense fuel level g comms res L :
  Forall (fun a => 0 <= a < Z.of_nat (nb_nodes g)) comms ->
  (forall a, 0 <= a < Z.of_nat (nb_nodes g) -> a ∈ comms) ->
  louvain_loop attempts fuel level g comms = Some (Ok (res, L)) ->
  length res = length comms /\ exists k, forall y, y ∈ res <-> 0 <= y < Z.of_nat k.
Proof.
  revert level g comms. induction fuel as [|fuel IH]; intros level g comms Hr Hs E;
    cbn [louvain_loop] in E; [done|].
  destruct (winner attempts level g) as [w|] eqn:Ew; [|done].
  destruct (Hcontract level g w (winner_elem _ _ _ Ew)) as (Hlen & Hrange & Hagg).
  destruct (renumber_communities_ok comms (a_n2c w))
    as (comms' & Er & Hlen' & _ & Hin & Honto); [by rewrite Hlen|by rewrite Hlen|].
  rewrite Er in E.
  assert (Hs' : forall a, 0 <= a < Z.of_nat (nb_communities (a_n2c w)) -> a ∈ comms').
  { apply Honto. intros a Ha. apply Hs. rewrite Hlen in Ha. lia. }
  destruct (improved w).
  - destruct (IH (S level) (aggregated w) comms') as [H1 H2]; [| |exact E|].
    + apply Forall_forall. intros y Hy. rewrite Hagg. by apply Hin.
    + intros a Ha. rewrite Hagg in Ha. by apply Hs'.
    + split; [lia|done].
  - injection E as <- <-. split; [done|].
    exists (nb_communities (a_n2c w)). intros y; split; [apply Hin|apply Hs'].
Qed.

Lemma evaluateGraph_final fuel graph res :
  evaluateGraph nb_nodes attempts fuel graph = Some (Ok res) ->
  exists n2c k, length n2c = nb_nodes graph /\
    (forall y, y ∈ n2c <-> 0 <= y < Z.of_nat k) /\ build_result n2c = Ok res.
Proof.
  unfold evaluateGraph.
  destruct (louvain_loop attempts fuel 0 graph (seqZ 0 (Z.of_nat (nb_nodes graph))))
    as [[[n2c L]| |]|] eqn:E; try discriminate.
  intros Hb. injection Hb as Hb.
  assert (Hr : Forall (fun a => 0 <= a < Z.of_nat (nb_nodes graph))
                 (seqZ 0 (Z.of_nat (nb_nodes graph)))).
  { apply Forall_forall. intros y Hy. apply elem_of_seqZ in Hy. lia. }
  assert (Hs : forall a, 0 <= a < Z.of_nat (nb_nodes graph) ->
                 a ∈ seqZ 0 (Z.of_nat (nb_nodes graph))).
  { intros a Ha. apply elem_of_seqZ. lia. }
  destruct (louvain_loop_dense _ _ _ _ _ _ Hr Hs E) as [H1 [k Hk]].
  exists n2c, k. rewrite length_seqZ in H1. split_and!; [lia|done|done].
Qed.

End LouvainInvariant.

Lemma one_node_contract :
  forall level g a, a ∈ one_node_attempts level g -> attempt_contract one_node g a.
Proof.
  intros level g a Ha. apply list_elem_of_singleton in Ha as ->.
  split_and!; [reflexivity|repeat constructor; cbn; lia|reflexivity].
Qed.

Lemma pairs_contract :
  forall level g a, a ∈ pairs_attempts level g -> attempt_contract nodes_of g a.
Proof.
  intros level g a Ha.
  destruct g as [|[|[|[|[|g]]]]]; cbn in Ha;
    try (by apply not_elem_of_nil in Ha);
    apply list_elem_of_singleton in Ha as ->;
    (split_and!; [reflexivity|repeat constructor; cbn; lia|reflexivity]).
Qed.

(** C4: under the ClusterPass contract, every renumbering step preserves
    the order of the composed community ids and maps them onto a dense
    range [0, k) ([k] the number of non-empty communities); the final
    mapping read by [build_result] uses exactly the ids [0, k), and on a
    graph with vertices every one of the [k] returned communities is
    non-empty. *)
Theorem evaluateGraph_dense_ids {Graph} (nb_nodes : Graph -> nat)
    (attempts : nat -> Graph -> list (Attempt Graph))
    (Hcontract : forall level g a, a ∈ attempts level g -> attempt_contract nb_nodes g a) :
  (forall comms n2c,
     Forall (fun c => 0 <= c < Z.of_nat (length n2c)) n2c ->
     Forall (fun a => 0 <= a < Z.of_nat (length n2c)) comms ->
     exists comms', renumber_communities comms n2c = Ok comms' /\
       (forall i i' a a' c c' y y', comms !! i = Some a -> comms !! i' = Some a' ->
          n2c !! Z.to_nat a = Some c -> n2c !! Z.to_nat a' = Some c' ->
          comms' !! i = Some y -> comms' !! i' = Some y' -> (c < c' <-> y < y')) /\
       (forall y, y ∈ comms' -> 0 <= y < Z.of_nat (nb_communities n2c)) /\
       ((forall a, 0 <= a < Z.of_nat (length n2c) -> a ∈ comms) ->
        forall j, 0 <= j < Z.of_nat (nb_communities n2c) -> j ∈ comms')) /\
  (forall fuel graph res,
     evaluateGraph nb_nodes attempts fuel graph = Some (Ok res) ->
     exists n2c k, build_result n2c = Ok res /\
       (forall y, y ∈ n2c <-> 0 <= y < Z.of_nat k) /\
       ((0 < nb_nodes graph)%nat -> length res = k /\ forall comm, comm ∈ res -> comm <> [])).
Proof.
  split.
  - intros comms n2c Hn2c Hcomms.
    destruct (renumber_communities_ok comms n2c Hn2c Hcomms)
      as (comms' & E & _ & Hord & Hin & Honto).
    exists comms'. auto.
  - intros fuel graph res E.
    destruct (evaluateGraph_final nb_nodes attempts Hcontract fuel graph res E)
      as (n2c & k & Hlen & Hk & Hb).
    exists n2c, k. split_and!; [done|done|]. intros Hpos.
    assert (Hnn : Forall (fun c => 0 <= c) n2c).
    { apply Forall_forall. intros y Hy. apply Hk in Hy. lia. }
    destruct (max_id_spec n2c Hnn) as (Hm0 & Hmax & _ & Hmin).
    assert (Hne : n2c <> []) by (intros ->; cbn in Hlen; lia).
    specialize (Hmin Hne). pose proof Hmin as Hmk. apply Hk in Hmk.
    assert (Hk1 : Z.of_nat k - 1 ∈ n2c) by (apply Hk; lia).
    assert (Z.of_nat k - 1 <= max_id n2c) by (eapply Forall_forall in Hmax; [exact Hmax|exact Hk1]).
    rewrite (build_result_ok n2c Hnn) in Hb. injection Hb as <-.
    split.
    + rewrite length_fmap, length_seq. lia.
    + intros comm Hc. apply list_elem_of_fmap in Hc as (d & -> & Hd).
      apply elem_of_seq in Hd.
      assert (Hdin : Z.of_nat d ∈ n2c) by (apply Hk; lia).
      apply list_elem_of_lookup_1 in Hdin as [j Ej].
      intros Hnil.
      assert (Hj : Z.of_nat j ∈ community_members n2c (length n2c) d).
      { apply community_members_elem. split; [|done]. by apply lookup_lt_Some in Ej. }
      rewrite Hnil in Hj. by apply not_elem_of_nil in Hj.
Qed.

Lemma evaluateGraph_dense_ids_witness :
  renumber_communities [0; 1; 2; 3] [2; 0; 2; 0] = Ok [1; 0; 1; 0] /\
  (exists comms', renumber_communities [0; 1; 2; 3] [2; 0; 2; 0] = Ok comms' /\
     (forall i i' a a' c c' y y', [0; 1; 2; 3] !! i = Some a -> [0; 1; 2; 3] !! i' = Some a' ->
        [2; 0; 2; 0] !! Z.to_nat a = Some c -> [2; 0; 2; 0] !! Z.to_nat a' = Some c' ->
        comms' !! i = Some y -> comms' !! i' = Some y' -> (c < c' <-> y < y')) /\
     (forall y, y ∈ comms' -> 0 <= y < Z.of_nat (nb_communities [2; 0; 2; 0])) /\
     ((forall a, 0 <= a < Z.of_nat (length [2; 0; 2; 0]) -> a ∈ [0; 1; 2; 3]) ->
      forall j, 0 <= j < Z.of_nat (nb_communities [2; 0; 2; 0]) -> j ∈ comms')) /\
  evaluateGraph nodes_of pairs_attempts 3 4%nat = Some (Ok [[0; 2]; [1; 3]]) /\
  exists n2c k, build_result n2c = Ok [[0; 2]; [1; 3]] /\
    (forall y, y ∈ n2c <-> 0 <= y < Z.of_nat k) /\
    ((0 < nodes_of 4%nat)%nat -> length [[0; 2]; [1; 3]] = k /\
       forall comm, comm ∈ [[0; 2]; [1; 3]] -> comm <> []).
Proof.
  split; [reflexivity|].
  split; [apply (proj1 (evaluateGraph_dense_ids nodes_of pairs_attempts pairs_contract));
          repeat constructor; cbn; lia|].
  split; [reflexivity|].
  apply (proj2 (evaluateGraph_dense_ids nodes_of pairs_attempts pairs_contract) 3%nat 4%nat).
  reflexivity.
Defined.

(** C10: under the ClusterPass contract, on a graph with at least one
    vertex the result of [evaluateGraph] has [1 + M] communities, where
    [n2c] is the final mapping of the original vertices and [M] is the
    largest id occurring in it; community [d] holds, once each, exactly
    the vertices [i] with [n2c[i] = d], so every vertex is in exactly one
    community, the one indexed by its final id. *)
Theorem evaluateGraph_result_communities {Graph} (nb_nodes : Graph -> nat)
    (attempts : nat -> Graph -> list (Attempt Graph))
    (Hcontract : forall level g a, a ∈ attempts level g -> attempt_contract nb_nodes g a)
    fuel graph res :
  (0 < nb_nodes graph)%nat ->
  evaluateGraph nb_nodes attempts fuel graph = Some (Ok res) ->
  exists n2c, length n2c = nb_nodes graph /\ Forall (fun c => 0 <= c) n2c /\
    max_id n2c ∈ n2c /\ Forall (fun c => c <= max_id n2c) n2c /\
    length res = (1 + Z.to_nat (max_id n2c))%nat /\
    (forall d comm, res !! d = Some comm ->
       NoDup comm /\ forall i, Z.of_nat i ∈ comm <-> n2c !! i = Some (Z.of_nat d)).
Proof.
  intros Hpos E.
  destruct (evaluateGraph_final nb_nodes attempts Hcontract fuel graph res E)
    as (n2c & k & Hlen & Hk & Hb).
  assert (Hnn : Forall (fun c => 0 <= c) n2c).
  { apply Forall_forall. intros y Hy. apply Hk in Hy. lia. }
  destruct (max_id_spec n2c Hnn) as (Hm0 & Hmax & Hnil & Hmin).
  assert (Hne : n2c <> []) by (intros ->; cbn in Hlen; lia).
  rewrite (build_result_ok n2c Hnn) in Hb. injection Hb as <-.
  exists n2c. split_and!; [done|done|by apply Hmin|done| |].
  - rewrite length_fmap, length_seq. lia.
  - intros d comm Ed. rewrite list_lookup_fmap in Ed.
    destruct (seq 0 _ !! d) eqn:Esd; [|done]. injection Ed as <-.
    apply lookup_seq in Esd as [-> _]. cbn.
    split; [apply community_members_NoDup|].
    intros i. rewrite community_members_elem. split; [tauto|].
    intros Ei. split; [|done]. by apply lookup_lt_Some in Ei.
Qed.

Lemma evaluateGraph_result_communities_witness :
  evaluateGraph nodes_of pairs_attempts 3 4%nat = Some (Ok [[0; 2]; [1; 3]]) /\
  exists n2c, length n2c = nodes_of 4%nat /\ Forall (fun c => 0 <= c) n2c /\
    max_id n2c ∈ n2c /\ Forall (fun c => c <= max_id n2c) n2c /\
    length [[0; 2]; [1; 3]] = (1 + Z.to_nat (max_id n2c))%nat /\
    (forall d comm, [[0; 2]; [1; 3]] !! d = Some comm ->
       NoDup comm /\ forall i, Z.of_nat i ∈ comm <-> n2c !! i = Some (Z.of_nat d)).
Proof.
  split; [reflexivity|].
  apply (evaluateGraph_result_communities nodes_of pairs_attempts pairs_contract 3%nat 4%nat);
    first [reflexivity | unfold nodes_of; lia].
Defined.

(* ------------------------------------------------------------------ *)
(** ** Selection of the winner *)

Lemma best_scan_spec k i b ms :
  (b < i)%nat ->
  (forall j, (j < i)%nat -> (mod_at ms j <= mod_at ms b)%Q) ->
  (forall j, (j < b)%nat -> (mod_at ms j < mod_at ms b)%Q) ->
  let r := best_scan k i b ms in
  (r < i + k)%nat /\
  (forall j, (j < i + k)%nat -> (mod_at ms j <= mod_at ms r)%Q) /\
  (forall j, (j < r)%nat -> (mod_at ms j < mod_at ms r)%Q).
Proof.
  revert i b. induction k as [|k IH]; intros i b Hb Hle Hlt; cbn [best_scan].
  - rewrite Nat.add_0_r. auto.
  - replace (i + S k)%nat with (S i + k)%nat by lia.
    destruct (Qle_bool (mod_at ms i) (mod_at ms b)) eqn:Eq; cbn [negb].
    + apply Qle_bool_iff in Eq. apply IH; [lia| |done].
      intros j Hj. destruct (decide (j = i)) as [->|]; [done|]. apply Hle. lia.
    + assert (Hbi : (mod_at ms b < mod_at ms i)%Q).
      { apply Qnot_le_lt. intros H. apply Qle_bool_iff in H. congruence. }
      apply IH; [lia| |].
      * intros j Hj. destruct (decide (j = i)) as [->|]; [apply Qle_refl|].
        apply Qlt_le_weak. eapply Qle_lt_trans; [apply Hle; lia|done].
      * intros j Hj. eapply Qle_lt_trans; [apply Hle; lia|done].
Qed.

Lemma best_attempt_spec ms :
  (0 < length ms)%nat ->
  (best_attempt ms < length ms)%nat /\
  (forall j, (j < length ms)%nat -> (mod_at ms j <= mod_at ms (best_attempt ms))%Q) /\
  (forall j, (j < best_attempt ms)%nat -> (mod_at ms j < mod_at ms (best_attempt ms))%Q).
Proof.
  intros Hn. unfold best_attempt.
  destruct (best_scan_spec (length ms - 1) 1 0 ms) as (H1 & H2 & H3).
  - lia.
  - intros j Hj. assert (j = 0)%nat as -> by lia. apply Qle_refl.
  - intros j Hj. lia.
  - replace (1 + (length ms - 1))%nat with (length ms) in * by lia. auto.
Qed.

(** C5: with at least one attempt, the winner of a level is an attempt of
    highest modularity, and every attempt with a lower index has strictly
    lower modularity (ties go to the lowest index). *)
Theorem winner_highest_modularity_lowest_index {Graph}
    (attempts : nat -> Graph -> list (Attempt Graph)) level g :
  (0 < length (attempts level g))%nat ->
  exists b w, attempts level g !! b = Some w /\ winner attempts level g = Some w /\
    (forall j a, attempts level g !! j = Some a -> (modularity a <= modularity w)%Q) /\
    (forall j a, (j < b)%nat -> attempts level g !! j = Some a ->
                 (modularity a < modularity w)%Q).
Proof.
  intros Hn. unfold winner.
  set (ps := attempts level g) in *.
  destruct (best_attempt_spec (modularity <$> ps)) as (H1 & H2 & H3).
  { by rewrite length_fmap. }
  rewrite length_fmap in H1, H2.
  set (b := best_attempt (modularity <$> ps)) in *.
  destruct (lookup_lt_is_Some_2 ps b H1) as [w Ew].
  assert (Hm : forall j a, ps !! j = Some a -> mod_at (modularity <$> ps) j = modularity a).
  { intros j a E. unfold mod_at. by rewrite list_lookup_fmap, E. }
  exists b, w. split_and!; [done|done| |].
  - intros j a Ea. rewrite <- (Hm _ _ Ea), <- (Hm _ _ Ew).
    apply H2. by apply lookup_lt_Some in Ea.
  - intros j a Hj Ea. rewrite <- (Hm _ _ Ea), <- (Hm _ _ Ew). by apply H3.
Qed.

Lemma winner_highest_modularity_lowest_index_witness :
  (0 < length (tie_attempts 0 tt))%nat /\
  exists b w, tie_attempts 0 tt !! b = Some w /\ winner tie_attempts 0 tt = Some w /\
    (forall j a, tie_attempts 0 tt !! j = Some a -> (modularity a <= modularity w)%Q) /\
    (forall j a, (j < b)%nat -> tie_attempts 0 tt !! j = Some a ->
                 (modularity a < modularity w)%Q).
Proof.
  split; [vm_compute; lia|].
  apply (winner_highest_modularity_lowest_index tie_attempts 0 tt). vm_compute; lia.
Defined.

(* ------------------------------------------------------------------ *)
(** ** Termination of the level loop *)

Lemma state_from_S {Graph} (attempts : nat -> Graph -> list (Attempt Graph)) j level g c :
  state_from attempts (S j) level g c =
  match winner attempts level g with
  | Some w =>
      match renumber_communities c (a_n2c w) with
      | Ok c' => state_from attempts j (S level) (aggregated w) c'
      | _ => None
      end
  | None => None
  end.
Proof. reflexivity. Qed.

Lemma louvain_loop_levels {Graph} (attempts : nat -> Graph -> list (Attempt Graph))
    fuel level g n2c res L :
  louvain_loop attempts fuel level g n2c = Some (Ok (res, L)) <->
  exists m, (m < fuel)%nat /\ L = (level + S m)%nat /\
    (forall j, (j < m)%nat -> exists gj cj w,
       state_from attempts j level g n2c = Some (gj, cj) /\
       winner attempts (level + j) gj = Some w /\ improved w = true) /\
    exists gm cm w, state_from attempts m level g n2c = Some (gm, cm) /\
       winner attempts (level + m) gm = Some w /\ improved w = false /\
       renumber_communities cm (a_n2c w) = Ok res.
Proof.
  revert level g n2c. induction fuel as [|fuel IH]; intros level g n2c.
  { split; [done|]. intros (m & Hm & _). lia. }
  cbn [louvain_loop]. split.
  - destruct (winner attempts level g) as [w|] eqn:Ew; [|done].
    destruct (renumber_communities n2c (a_n2c w)) as [n2c'| |] eqn:Er; try done.
    destruct (improved w) eqn:Ei.
    + intros E. apply IH in E as (m & Hm & -> & Hpre & gm & cm & wm & Es & Ewm & Eim & Erm).
      exists (S m). split_and!; [lia|lia| |].
      * intros [|j] Hj.
        -- exists g, n2c, w. rewrite Nat.add_0_r. done.
        -- destruct (Hpre j) as (gj & cj & wj & Esj & Ewj & Eij); [lia|].
           exists gj, cj, wj. rewrite state_from_S, Ew, Er.
           replace (level + S j)%nat with (S level + j)%nat by lia. done.
      * exists gm, cm, wm. rewrite state_from_S, Ew, Er.
        replace (level + S m)%nat with (S level + m)%nat by lia. done.
    + intros E. injection E as <- <-. exists 0%nat. split_and!; [lia|lia| |].
      * intros j Hj. lia.
      * exists g, n2c, w. rewrite Nat.add_0_r. done.
  - intros (m & Hm & -> & Hpre & gm & cm & wm & Es & Ewm & Eim & Erm).
    destruct m as [|m].
    + cbn in Es. injection Es as <- <-. rewrite Nat.add_0_r in Ewm.
      rewrite Ewm, Erm, Eim. do 3 f_equal. lia.
    + destruct (Hpre 0%nat) as (g0 & c0 & w0 & Es0 & Ew0 & Ei0); [lia|].
      cbn in Es0. injection Es0 as <- <-. rewrite Nat.add_0_r in Ew0.
      rewrite state_from_S, Ew0 in Es. rewrite Ew0.
      destruct (renumber_communities n2c (a_n2c w0)) as [c1| |] eqn:Er0; try done.
      rewrite Ei0. apply IH.
      exists m. split_and!; [lia|lia| |].
      * intros j Hj. destruct (Hpre (S j)) as (gj & cj & wj & Esj & Ewj & Eij); [lia|].
        rewrite state_from_S, Ew0, Er0 in Esj.
        exists gj, cj, wj. replace (S level + j)%nat with (level + S j)%nat by lia. done.
      * exists gm, cm, wm. replace (S level + m)%nat with (level + S m)%nat by lia. done.
Qed.

(** C6: the loop returns after [m + 1] levels exactly when the winners of
    the first [m] levels reported an improvement and the winner of level
    [m] did not (the result being that level's renumbering); and, under
    the ClusterPass contract and the assumption that no attempt on a graph
    without links improves, on a graph without links the loop stops after
    exactly one level, whatever the level budget [fuel >= 1]. *)
Theorem louvain_loop_stops_at_first_non_improving {Graph}
    (nb_nodes nb_links : Graph -> nat) (attempts : nat -> Graph -> list (Attempt Graph))
    (Hcontract : forall level g a, a ∈ attempts level g -> attempt_contract nb_nodes g a)
    (Hzero : forall level g a, nb_links g = 0%nat -> a ∈ attempts level g -> improved a = false) :
  (forall fuel level g n2c res L,
     louvain_loop attempts fuel level g n2c = Some (Ok (res, L)) <->
     exists m, (m < fuel)%nat /\ L = (level + S m)%nat /\
       (forall j, (j < m)%nat -> exists gj cj w,
          state_from attempts j level g n2c = Some (gj, cj) /\
          winner attempts (level + j) gj = Some w /\ improved w = true) /\
       exists gm cm w, state_from attempts m level g n2c = Some (gm, cm) /\
          winner attempts (level + m) gm = Some w /\ improved w = false /\
          renumber_communities cm (a_n2c w) = Ok res) /\
  (forall fuel graph,
     nb_links graph = 0%nat -> (0 < length (attempts 0 graph))%nat -> (1 <= fuel)%nat ->
     exists res, louvain_loop attempts fuel 0 graph (seqZ 0 (Z.of_nat (nb_nodes graph)))
                 = Some (Ok (res, 1%nat))).
Proof.
  split; [intros; apply louvain_loop_levels|].
  intros fuel graph Hl Hn Hf.
  destruct fuel as [|fuel]; [lia|]. cbn [louvain_loop].
  destruct (winner attempts 0 graph) as [w|] eqn:Ew.
  2:{ unfold winner in Ew. apply lookup_ge_None in Ew.
      destruct (best_attempt_spec (modularity <$> attempts 0%nat graph)) as [Hb _];
        rewrite length_fmap in *; lia. }
  pose proof (winner_elem attempts 0 graph w Ew) as Hw.
  destruct (Hcontract 0%nat graph w Hw) as (Hlen & Hrange & _).
  destruct (renumber_communities_ok (seqZ 0 (Z.of_nat (nb_nodes graph))) (a_n2c w))
    as (c' & Er & _).
  - by rewrite Hlen.
  - apply Forall_forall. intros y Hy. apply elem_of_seqZ in Hy. lia.
  - rewrite Er, (Hzero 0%nat graph w Hl Hw). by exists c'.
Qed.

Lemma louvain_loop_stops_at_first_non_improving_witness :
  (forall fuel level g n2c res L,
     louvain_loop one_node_attempts fuel level g n2c = Some (Ok (res, L)) <->
     exists m, (m < fuel)%nat /\ L = (level + S m)%nat /\
       (forall j, (j < m)%nat -> exists gj cj w,
          state_from one_node_attempts j level g n2c = Some (gj, cj) /\
          winner one_node_attempts (level + j) gj = Some w /\ improved w = true) /\
       exists gm cm w, state_from one_node_attempts m level g n2c = Some (gm, cm) /\
          winner one_node_attempts (level + m) gm = Some w /\ improved w = false /\
          renumber_communities cm (a_n2c w) = Ok res) /\
  (forall fuel graph,
     (fun _ : unit => 0%nat) graph = 0%nat -> (0 < length (one_node_attempts 0 graph))%nat ->
     (1 <= fuel)%nat ->
     exists res, louvain_loop one_node_attempts fuel 0 graph
                   (seqZ 0 (Z.of_nat (one_node graph))) = Some (Ok (res, 1%nat))).
Proof.
  apply (louvain_loop_stops_at_first_non_improving one_node (fun _ => 0%nat)
           one_node_attempts one_node_contract).
  intros level g a _ Ha. apply list_elem_of_singleton in Ha as ->. reflexivity.
Defined.

(* ================================================================== *)
(** * Further properties of [VertexInfo] *)

(* ------------------------------------------------------------------ *)
(** ** Accessors *)

(** For an index in [[0, width)], [setBorderSPLength] stores the value
    where [getBorderSPLength] reads it back, touches no other index and no
    count, and keeps the width; likewise [setBorderSPCount] for counts. *)
Theorem accessors_set_get_roundtrip {V W} (p : VertexInfo V W) i j (x : W) (y : V) :
  wf p -> 0 <= i < _borderCount p -> 0 <= j < _borderCount p ->
  (exists p', setBorderSPLength p i x = Ok p' /\ wf p' /\
     _borderCount p' = _borderCount p /\ _borderSPCount p' = _borderSPCount p /\
     getBorderSPLength p' i = Ok x /\
     (j <> i -> getBorderSPLength p' j = getBorderSPLength p j)) /\
  (exists p', setBorderSPCount p i y = Ok p' /\ wf p' /\
     _borderCount p' = _borderCount p /\ _borderSPLength p' = _borderSPLength p /\
     getBorderSPCount p' i = Ok y /\
     (j <> i -> getBorderSPCount p' j = getBorderSPCount p j)).
Proof.
  intros (Hn & Hl & Hc) Hi Hj.
  unfold setBorderSPLength, setBorderSPCount, getBorderSPLength, getBorderSPCount.
  rewrite !decide_True by lia.
  split.
  - rewrite vec_set_Z by lia. cbn. eexists. split; [reflexivity|]. cbn.
    rewrite !decide_True by lia.
    split_and!; [unfold wf; cbn; rewrite length_insert; done|done|done| |].
    + unfold vec_get. rewrite decide_True by lia.
      rewrite list_lookup_insert_eq by lia. done.
    + intros Hji. unfold vec_get. rewrite !decide_True by lia.
      rewrite list_lookup_insert_ne by lia. done.
  - rewrite vec_set_Z by lia. cbn. eexists. split; [reflexivity|]. cbn.
    rewrite !decide_True by lia.
    split_and!; [unfold wf; cbn; rewrite length_insert; done|done|done| |].
    + unfold vec_get. rewrite decide_True by lia.
      rewrite list_lookup_insert_eq by lia. done.
    + intros Hji. unfold vec_get. rewrite !decide_True by lia.
      rewrite list_lookup_insert_ne by lia. done.
Qed.

Lemma accessors_set_get_roundtrip_witness :
  (exists p', setBorderSPLength (VertexInfo_new 2) 0 7 = Ok p' /\ wf p' /\
     _borderCount p' = _borderCount (VertexInfo_new 2) /\
     _borderSPCount p' = _borderSPCount (VertexInfo_new 2) /\
     getBorderSPLength p' 0 = Ok 7 /\
     (1 <> 0 -> getBorderSPLength p' 1 = getBorderSPLength (VertexInfo_new 2) 1)) /\
  (exists p', setBorderSPCount (VertexInfo_new 2) 0 9 = Ok p' /\ wf p' /\
     _borderCount p' = _borderCount (VertexInfo_new 2) /\
     _borderSPLength p' = _borderSPLength (VertexInfo_new 2) /\
     getBorderSPCount p' 0 = Ok 9 /\
     (1 <> 0 -> getBorderSPCount p' 1 = getBorderSPCount (VertexInfo_new 2) 1)).
Proof.
  apply accessors_set_get_roundtrip;
    [vm_compute; split_and!; congruence | vm_compute; split_and!; congruence
    | vm_compute; split_and!; congruence].
Defined.

(* ------------------------------------------------------------------ *)
(** ** Converting copy and assignment *)

Lemma length_vec_resize {A} (z : A) n v : length (vec_resize z n v) = Z.to_nat n.
Proof. unfold vec_resize. rewrite length_app, length_take, length_replicate. lia. Qed.

Section ConversionProofs.
Context {V W N E : Type}.
Variables (zeroW : W) (zeroV : V) (castW : E -> W) (castV : N -> V).

(** The copy loop, from any state of the right width, yields the
    converted vectors of [copy]. *)
Lemma copy_loop_ok (copy : VertexInfo N E) (s : VertexInfo V W) :
  wf copy -> _borderCount s = _borderCount copy ->
  length (_borderSPLength s) = Z.to_nat (_borderCount copy) ->
  length (_borderSPCount s) = Z.to_nat (_borderCount copy) ->
  for_range (Z.to_nat (_borderCount copy)) 0 (copy_step castW castV copy) s =
  Ok (mkVertexInfo (_borderCount copy) (castW <$> _borderSPLength copy)
        (castV <$> _borderSPCount copy)).
Proof.
  intros (Hn & Hl & Hc) Hb Hls Hcs.
  set (n := Z.to_nat (_borderCount copy)) in *.
  destruct (for_range_ind
    (fun j t => _borderCount t = _borderCount copy /\
       length (_borderSPLength t) = n /\ length (_borderSPCount t) = n /\
       forall d, (d < j)%nat ->
         _borderSPLength t !! d = castW <$> _borderSPLength copy !! d /\
         _borderSPCount t !! d = castV <$> _borderSPCount copy !! d)
    (copy_step castW castV copy) n) with (s := s) as (s' & E' & Hb' & Hl' & Hc' & Hd).
  - intros j t Hj (Htb & Htl & Htc & Htd).
    destruct (lookup_lt_is_Some_2 (_borderSPLength copy) j) as [l El]; [lia|].
    destruct (lookup_lt_is_Some_2 (_borderSPCount copy) j) as [c Ec]; [lia|].
    unfold copy_step. rewrite (vec_get_lookup _ _ _ El).
    cbv beta iota delta [mbind outcome_bind].
    rewrite vec_set_lookup by lia. rewrite (vec_get_lookup _ _ _ Ec).
    rewrite vec_set_lookup by lia.
    eexists. split; [reflexivity|]. cbn.
    split_and!; [done|by rewrite length_insert|by rewrite length_insert|].
    intros d Hd. destruct (decide (d = j)) as [->|Hdj].
    + rewrite !list_lookup_insert_eq by lia. rewrite El, Ec. done.
    + rewrite !list_lookup_insert_ne by lia. apply Htd. lia.
  - split_and!; [done|done|done|]. intros d Hd. lia.
  - rewrite E'. destruct s' as [b ls cs]; cbn in *. subst b. do 2 f_equal.
    + apply list_eq. intros d. rewrite list_lookup_fmap.
      destruct (decide (d < n)%nat); [by apply Hd|].
      rewrite !lookup_ge_None_2 by lia. done.
    + apply list_eq. intros d. rewrite list_lookup_fmap.
      destruct (decide (d < n)%nat); [by apply Hd|].
      rewrite !lookup_ge_None_2 by lia. done.
Qed.

End ConversionProofs.

(** The converting copy constructor [VertexInfo<V, W>(copy)] of a
    well-formed profile returns a profile of the same width whose lengths
    and counts are [copy]'s, each converted with [(W)] and [(V)]. *)
Theorem VertexInfo_copy_converts {V W N E : Type} (zeroW : W) (zeroV : V)
    (castW : E -> W) (castV : N -> V) (copy : VertexInfo N E) :
  wf copy ->
  VertexInfo_copy zeroW zeroV castW castV copy =
  Ok (mkVertexInfo (_borderCount copy) (castW <$> _borderSPLength copy)
        (castV <$> _borderSPCount copy)).
Proof.
  intros Hw. pose proof Hw as (Hn & _ & _).
  apply copy_loop_ok; [done|done|cbn; by rewrite length_replicate|cbn; by rewrite length_replicate].
Qed.

Lemma VertexInfo_copy_converts_witness :
  VertexInfo_copy 0 0 Z.abs Z.opp cmp_P =
  Ok (mkVertexInfo (_borderCount cmp_P) (Z.abs <$> _borderSPLength cmp_P)
        (Z.opp <$> _borderSPCount cmp_P)).
Proof. apply VertexInfo_copy_converts. vm_compute. split_and!; congruence. Defined.

(** [self = other] between well-formed profiles returns [other]'s width,
    lengths and counts (converted), whatever [self]'s width was: a
    different width is first adopted and both vectors resized. *)
Theorem assign_converts {V W N E : Type} (zeroW : W) (zeroV : V)
    (castW : E -> W) (castV : N -> V) (self : VertexInfo V W) (other : VertexInfo N E) :
  wf self -> wf other ->
  assign zeroW zeroV castW castV self other =
  Ok (mkVertexInfo (_borderCount other) (castW <$> _borderSPLength other)
        (castV <$> _borderSPCount other)).
Proof.
  intros (Hn & Hl & Hc) Ho. pose proof Ho as (Hn' & _ & _). unfold assign.
  destruct (decide (_borderCount self <> _borderCount other)) as [Hne|Heq]; cbn.
  - apply copy_loop_ok; [done|done|apply length_vec_resize|apply length_vec_resize].
  - assert (Hb : _borderCount self = _borderCount other) by lia. rewrite Hb.
    apply copy_loop_ok; [done|done|by rewrite <- Hb|by rewrite <- Hb].
Qed.

Lemma assign_converts_witness :
  assign 0 0 (fun x => x) (fun x => x) (VertexInfo_new 3) cmp_P =
  Ok (mkVertexInfo (_borderCount cmp_P) ((fun x => x) <$> _borderSPLength cmp_P)
        ((fun x => x) <$> _borderSPCount cmp_P)).
Proof.
  apply assign_converts; vm_compute; split_and!; congruence.
Defined.

(* ------------------------------------------------------------------ *)
(** ** [reset] *)

(** For a non-negative width, [reset()] leaves a well-formed profile of the
    same width whose lengths and counts all read 0 — also when the vectors
    had another size before. *)
Theorem reset_all_zero (p : Profile) i :
  0 <= _borderCount p -> 0 <= i < _borderCount p ->
  wf (reset p) /\ _borderCount (reset p) = _borderCount p /\
  getBorderSPLength (reset p) i = Ok 0 /\ getBorderSPCount (reset p) i = Ok 0.
Proof.
  intros Hn Hi. unfold reset, wf, getBorderSPLength, getBorderSPCount. cbn.
  rewrite !length_replicate, !decide_True by lia.
  split_and!; try done; apply vec_get_Z; try lia; apply lookup_replicate_2; lia.
Qed.

Lemma reset_all_zero_witness :
  wf (reset wide_Q) /\ _borderCount (reset wide_Q) = _borderCount wide_Q /\
  getBorderSPLength (reset wide_Q) 2 = Ok 0 /\ getBorderSPCount (reset wide_Q) 2 = Ok 0.
Proof. apply reset_all_zero; cbn; lia. Defined.

(* ------------------------------------------------------------------ *)
(** ** Operators with a number *)

Lemma imap_const_fmap {A} (f : A -> A) (l : list A) : imap (fun _ x => f x) l = f <$> l.
Proof. apply list_eq. intros j. by rewrite list_lookup_imap, list_lookup_fmap. Qed.

Lemma elementwise_map (f g : Z -> Z) (p : Profile) :
  wf p ->
  elementwise (fun _ x => Ok (f x)) (fun _ x => Ok (g x)) p =
  Ok (mkVertexInfo (_borderCount p) (f <$> _borderSPLength p) (g <$> _borderSPCount p)).
Proof.
  intros Hp. rewrite (elementwise_ok _ _ (fun _ x => f x) (fun _ x => g x) p Hp) by done.
  by rewrite !imap_const_fmap.
Qed.

Lemma wf_fmap (f g : Z -> Z) (p : Profile) :
  wf p -> wf (mkVertexInfo (_borderCount p) (f <$> _borderSPLength p) (g <$> _borderSPCount p)).
Proof. intros (Hn & Hl & Hc). unfold wf; cbn. by rewrite !length_fmap. Qed.

Lemma fmap_inverse (f g : Z -> Z) (l : list Z) :
  (forall x, g (f x) = x) -> g <$> (f <$> l) = l.
Proof.
  intros H. apply list_eq. intros j. rewrite !list_lookup_fmap.
  destruct (l !! j); cbn; by rewrite ?H.
Qed.

(** With integer lengths and counts computed exactly (no overflow, no
    rounding: [Profile]), [p + num] adds [num] to every length and count
    and keeps the width; subtracting [num] from the result gives [p]
    back. *)
Theorem add_num_sub_num_roundtrip (p : Profile) num :
  wf p ->
  add_num p num = Ok (mkVertexInfo (_borderCount p)
                        ((fun x => x + num) <$> _borderSPLength p)
                        ((fun x => x + num) <$> _borderSPCount p)) /\
  exists p1, add_num p num = Ok p1 /\ sub_num p1 num = Ok p.
Proof.
  intros Hp. unfold add_num, sub_num, add_num_assign, sub_num_assign.
  rewrite elementwise_map by done. split; [done|].
  eexists. split; [reflexivity|].
  rewrite elementwise_map by (apply wf_fmap; done). cbn.
  rewrite !fmap_inverse by (intros; lia). by destruct p.
Qed.

Lemma add_num_sub_num_roundtrip_witness :
  add_num cmp_P 4 = Ok (mkVertexInfo (_borderCount cmp_P)
                          ((fun x => x + 4) <$> _borderSPLength cmp_P)
                          ((fun x => x + 4) <$> _borderSPCount cmp_P)) /\
  exists p1, add_num cmp_P 4 = Ok p1 /\ sub_num p1 4 = Ok cmp_P.
Proof. apply add_num_sub_num_roundtrip. vm_compute. split_and!; congruence. Defined.

(** [p / num] with integer entries: for [num <> 0] every length and count
    is divided with truncation toward zero; for [num = 0] it is undefined
    behaviour as soon as the profile has a border, and returns [p]
    unchanged on a profile without borders. *)
Theorem div_num_by_zero_undefined (p : Profile) num :
  wf p ->
  (num <> 0 -> div_num p num =
     Ok (mkVertexInfo (_borderCount p) ((fun x => Z.quot x num) <$> _borderSPLength p)
           ((fun x => Z.quot x num) <$> _borderSPCount p))) /\
  (num = 0 -> 0 < _borderCount p -> div_num p num = Undefined) /\
  (_borderCount p = 0 -> div_num p num = Ok p).
Proof.
  intros Hp. pose proof Hp as (Hn & Hl & Hc).
  unfold div_num, div_num_assign. split_and!.
  - intros Hk.
    rewrite (elementwise_ok _ _ (fun _ x => Z.quot x num) (fun _ x => Z.quot x num) p Hp).
    + by rewrite !imap_const_fmap.
    + intros j x _. unfold int_div. by rewrite decide_False.
    + intros j x _. unfold int_div. by rewrite decide_False.
  - intros -> Hpos.
    destruct (_borderSPLength p) as [|x t] eqn:El; [cbn in Hl; lia|].
    unfold elementwise.
    replace (Z.to_nat (_borderCount p)) with (S (Z.to_nat (_borderCount p) - 1)) by lia.
    cbn [for_range]. unfold upd_length. rewrite El. reflexivity.
  - intros H0. unfold elementwise. rewrite H0. by destruct p.
Qed.

Lemma div_num_by_zero_undefined_witness :
  (0 <> 0 -> div_num cmp_P 0 =
     Ok (mkVertexInfo (_borderCount cmp_P) ((fun x => Z.quot x 0) <$> _borderSPLength cmp_P)
           ((fun x => Z.quot x 0) <$> _borderSPCount cmp_P))) /\
  (0 = 0 -> 0 < _borderCount cmp_P -> div_num cmp_P 0 = Undefined) /\
  (_borderCount cmp_P = 0 -> div_num cmp_P 0 = Ok cmp_P).
Proof. apply div_num_by_zero_undefined. vm_compute. split_and!; congruence. Defined.

(** With integer lengths and counts computed exactly (no overflow:
    [Profile]), for [k <> 0], [(p * k) / k] gives [p] back: truncating
    integer division by [k] undoes the multiplication on every length and
    count. *)
Theorem mul_num_div_num_roundtrip (p : Profile) k :
  wf p -> k <> 0 ->
  exists p1, mul_num p k = Ok p1 /\ div_num p1 k = Ok p.
Proof.
  intros Hp Hk. unfold mul_num, mul_num_assign, div_num, div_num_assign.
  rewrite elementwise_map by done. eexists. split; [reflexivity|].
  rewrite (elementwise_ok _ _ (fun _ x => Z.quot x k) (fun _ x => Z.quot x k))
    by first [apply wf_fmap; done | intros; unfold int_div; by rewrite decide_False].
  cbn. rewrite !imap_const_fmap, !fmap_inverse by (intros; by apply Z.quot_mul).
  by destruct p.
Qed.

Lemma mul_num_div_num_roundtrip_witness :
  exists p1, mul_num cmp_P (-3) = Ok p1 /\ div_num p1 (-3) = Ok cmp_P.
Proof.
  apply mul_num_div_num_roundtrip; [vm_compute; split_and!; congruence | lia].
Defined.

(* ------------------------------------------------------------------ *)
(** ** Operators between profiles *)

Lemma zip_with_sub_add (a b : list Z) :
  (length a <= length b)%nat -> zip_with Z.sub (zip_with Z.add a b) b = a.
Proof.
  intros Hle. apply list_eq. intros j. rewrite !lookup_zip_with.
  destruct (a !! j) as [x|] eqn:Ea; cbn; [|done].
  apply lookup_lt_Some in Ea.
  destruct (lookup_lt_is_Some_2 b j) as [y Ey]; [lia|]. rewrite Ey. cbn. f_equal. lia.
Qed.

Lemma zip_with_comm (f : Z -> Z -> Z) (a b : list Z) :
  (forall x y, f x y = f y x) -> zip_with f a b = zip_with f b a.
Proof.
  intros Hf. apply list_eq. intros j. rewrite !lookup_zip_with.
  destruct (a !! j), (b !! j); cbn; [f_equal; apply Hf|done..].
Qed.

(** With integer lengths and counts computed exactly (no overflow, no
    rounding: [Profile]), for [p.borders() <= q.borders()], [(p + q) - q]
    gives [p] back. *)
Theorem add_sub_roundtrip (p q : Profile) :
  wf p -> wf q -> _borderCount p <= _borderCount q ->
  exists p1, add p q = Ok p1 /\ sub p1 q = Ok p.
Proof.
  intros Hp Hq Hle. pose proof Hp as (Hn & Hl & Hc). pose proof Hq as (Hn' & Hl' & Hc').
  unfold add, add_assign, sub, sub_assign.
  rewrite (binop_assign_ok Z.add p q Hp Hq Hle). eexists. split; [reflexivity|].
  rewrite (binop_assign_ok Z.sub); cbn; [|unfold wf; cbn; rewrite !length_zip_with; lia
    |done|done].
  rewrite !zip_with_sub_add by lia. by destruct p.
Qed.

Lemma add_sub_roundtrip_witness :
  exists p1, add cmp_P wide_Q = Ok p1 /\ sub p1 wide_Q = Ok cmp_P.
Proof.
  apply add_sub_roundtrip; [vm_compute; split_and!; congruence
    | vm_compute; split_and!; congruence | cbn; lia].
Defined.

(** For profiles of equal width, [p + q] and [q + p] give the same
    profile, and so do [p * q] and [q * p]. *)
Theorem add_mul_commute (p q : Profile) :
  wf p -> wf q -> _borderCount p = _borderCount q ->
  (exists r, add p q = Ok r /\ add q p = Ok r) /\
  (exists r, mul p q = Ok r /\ mul q p = Ok r).
Proof.
  intros Hp Hq Heq. unfold add, add_assign, mul, mul_assign.
  rewrite (binop_assign_ok Z.add p q), (binop_assign_ok Z.add q p),
    (binop_assign_ok Z.mul p q), (binop_assign_ok Z.mul q p) by (done || lia).
  rewrite Heq, (zip_with_comm Z.add (_borderSPLength p)), (zip_with_comm Z.add (_borderSPCount p)),
    (zip_with_comm Z.mul (_borderSPLength p)), (zip_with_comm Z.mul (_borderSPCount p))
    by (intros; lia).
  split; eauto.
Qed.

Lemma add_mul_commute_witness :
  (exists r, add cmp_P cmp_Q = Ok r /\ add cmp_Q cmp_P = Ok r) /\
  (exists r, mul cmp_P cmp_Q = Ok r /\ mul cmp_Q cmp_P = Ok r).
Proof.
  apply add_mul_commute; [vm_compute; split_and!; congruence
    | vm_compute; split_and!; congruence | reflexivity].
Defined.

Lemma for_range_ok_steps {St} (P : St -> Prop) (body : Z -> St -> outcome St) k i s s' :
  (forall j t t', P t -> body j t = Ok t' -> P t') -> P s ->
  for_range k i body s = Ok s' ->
  forall j, (j < k)%nat -> exists t t', P t /\ body (i + Z.of_nat j) t = Ok t'.
Proof.
  intros Hb. revert i s. induction k as [|k IH]; intros i s Hs E j Hj; [lia|].
  cbn in E. destruct (body i s) as [s1| |] eqn:E1; try discriminate. cbn in E.
  destruct j as [|j].
  - exists s, s1. rewrite Z.add_0_r. done.
  - destruct (IH (i + 1) s1 (Hb _ _ _ Hs E1) E j) as (t & t' & Ht & Et); [lia|].
    exists t, t'. split; [done|]. rewrite <- Et. f_equal. lia.
Qed.

Lemma for_range_undefined {St} (P : St -> Prop) (body : Z -> St -> outcome St) k s j :
  (forall j t t', P t -> body j t = Ok t' -> P t') -> P s ->
  (forall j t, body j t <> OutOfRange) ->
  (j < k)%nat -> (forall t, P t -> body (Z.of_nat j) t = Undefined) ->
  for_range k 0 body s = Undefined.
Proof.
  intros Hb Hs Hoor Hj Hfail.
  destruct (for_range k 0 body s) as [s'| |] eqn:E; [|exfalso|done].
  - destruct (for_range_ok_steps P body k 0 s s' Hb Hs E j Hj) as (t & t' & Ht & Et).
    rewrite Hfail in Et by done. discriminate.
  - by apply (for_range_not_oor k 0 body s).
Qed.

Lemma vec_set_length {A} (v v' : list A) i x : vec_set v i x = Ok v' -> length v' = length v.
Proof.
  unfold vec_set. repeat destruct decide; intros E; try discriminate.
  injection E as <-. apply length_insert.
Qed.

Lemma elementwise_body_shape {V W} (fl : Z -> W -> outcome W) (fc : Z -> V -> outcome V) n :
  forall j (t t' : VertexInfo V W),
  length (_borderSPLength t) = n /\ length (_borderSPCount t) = n ->
  (s' ← upd_length fl j t; upd_count fc j s') = Ok t' ->
  length (_borderSPLength t') = n /\ length (_borderSPCount t') = n.
Proof.
  intros j t t' [Hl Hc]. unfold upd_length, upd_count.
  destruct (vec_get (_borderSPLength t) j); try discriminate; cbn.
  destruct (fl j a); try discriminate; cbn.
  destruct (vec_set (_borderSPLength t) j a0) eqn:E1; try discriminate; cbn.
  destruct (vec_get (_borderSPCount t) j); try discriminate; cbn.
  destruct (fc j a2); try discriminate; cbn.
  destruct (vec_set (_borderSPCount t) j a3) eqn:E2; try discriminate; cbn.
  intros Et. injection Et as <-. cbn.
  apply vec_set_length in E1, E2. split; lia.
Qed.

(** When [p] is wider than [q], [p + q], [p - q], [p * q], [p / q] and
    [p.squaredDistance(q)] read [q]'s vectors past their end: undefined
    behaviour, never an exception and never a result. *)
Theorem binops_wider_lhs_undefined (p q : Profile) :
  wf p -> wf q -> _borderCount q < _borderCount p ->
  add p q = Undefined /\ sub p q = Undefined /\ mul p q = Undefined /\
  div p q = Undefined /\ squaredDistance_exact p q = Undefined.
Proof.
  intros Hp Hq Hlt. pose proof Hp as (Hn & Hl & Hc). pose proof Hq as (Hn' & Hl' & Hc').
  set (n := Z.to_nat (_borderCount p)) in *.
  set (j := Z.to_nat (_borderCount q)).
  assert (Hj : (j < n)%nat) by (unfold j, n; lia).
  assert (Hq_out : vec_get (_borderSPLength q) (Z.of_nat j) = Undefined).
  { unfold vec_get. rewrite decide_True by lia. rewrite Nat2Z.id, lookup_ge_None_2 by (unfold j; lia).
    done. }
  assert (Gen : forall fop : Z -> Z -> outcome Z,
    (forall x y, fop x y <> OutOfRange) ->
    elementwise (fun i x => y ← vec_get (_borderSPLength q) i; fop x y)
                (fun i x => y ← vec_get (_borderSPCount q) i; fop x y) p = Undefined).
  { intros fop Hfop. unfold elementwise.
    apply (for_range_undefined
      (fun t : Profile => length (_borderSPLength t) = n /\ length (_borderSPCount t) = n)
      _ _ _ j); [apply elementwise_body_shape|done| |done|].
    - intros i t. unfold upd_length, upd_count.
      repeat first [discriminate | apply Hfop | apply vec_get_not_oor
        | apply vec_set_not_oor | apply bind_not_oor | intros ?].
    - intros t [Htl Htc].
      destruct (lookup_lt_is_Some_2 (_borderSPLength t) j) as [x Ex]; [lia|].
      unfold upd_length. rewrite (vec_get_lookup _ _ _ Ex). cbn. rewrite Hq_out. done. }
  unfold add, add_assign, sub, sub_assign, mul, mul_assign, div, div_assign.
  split_and!; try (apply Gen; try discriminate).
  - intros x y. unfold int_div. destruct decide; discriminate.
  - unfold squaredDistance_exact, squaredDistance.
    apply (for_range_undefined (fun _ : Z => True) _ _ _ j); try done.
    + intros i t. repeat (apply bind_not_oor; [apply vec_get_not_oor|intros ?]). discriminate.
    + intros t _.
      destruct (lookup_lt_is_Some_2 (_borderSPLength p) j) as [x Ex]; [lia|].
      rewrite (vec_get_lookup _ _ _ Ex). cbn. rewrite Hq_out. done.
Qed.

Lemma binops_wider_lhs_undefined_witness :
  add wide_Q cmp_P = Undefined /\ sub wide_Q cmp_P = Undefined /\
  mul wide_Q cmp_P = Undefined /\ div wide_Q cmp_P = Undefined /\
  squaredDistance_exact wide_Q cmp_P = Undefined.
Proof.
  apply binops_wider_lhs_undefined; [vm_compute; split_and!; congruence
    | vm_compute; split_and!; congruence | cbn; lia].
Defined.

(** With a divisor of the same width, [p / q] divides entry by entry
    (truncating) when no entry of [q] is zero, and is undefined as soon
    as one entry of [q] is zero. *)
Theorem div_profile_zero_entry (p q : Profile) :
  wf p -> wf q -> _borderCount p = _borderCount q ->
  (0 ∉ _borderSPLength q -> 0 ∉ _borderSPCount q ->
   div p q = Ok (mkVertexInfo (_borderCount p)
                   (zip_with Z.quot (_borderSPLength p) (_borderSPLength q))
                   (zip_with Z.quot (_borderSPCount p) (_borderSPCount q)))) /\
  (0 ∈ _borderSPLength q \/ 0 ∈ _borderSPCount q -> div p q = Undefined).
Proof.
  intros Hp Hq Heq. pose proof Hp as (Hn & Hl & Hc). pose proof Hq as (Hn' & Hl' & Hc').
  unfold div, div_assign. split.
  - intros Hzl Hzc.
    rewrite (elementwise_ok _ _
      (fun j x => match _borderSPLength q !! j with Some y => Z.quot x y | None => x end)
      (fun j x => match _borderSPCount q !! j with Some y => Z.quot x y | None => x end) p Hp).
    + do 2 f_equal; apply list_eq; intros j;
        rewrite list_lookup_imap, lookup_zip_with.
      * destruct (_borderSPLength p !! j) eqn:E; cbn; [|done].
        apply lookup_lt_Some in E.
        destruct (lookup_lt_is_Some_2 (_borderSPLength q) j) as [y Ey]; [lia|].
        by rewrite Ey.
      * destruct (_borderSPCount p !! j) eqn:E; cbn; [|done].
        apply lookup_lt_Some in E.
        destruct (lookup_lt_is_Some_2 (_borderSPCount q) j) as [y Ey]; [lia|].
        by rewrite Ey.
    + intros j x Hj.
      destruct (lookup_lt_is_Some_2 (_borderSPLength q) j) as [y Ey]; [lia|].
      rewrite (vec_get_lookup _ _ _ Ey), Ey. cbn. unfold int_div.
      rewrite decide_False; [done|]. intros ->. apply Hzl. by eapply list_elem_of_lookup_2.
    + intros j x Hj.
      destruct (lookup_lt_is_Some_2 (_borderSPCount q) j) as [y Ey]; [lia|].
      rewrite (vec_get_lookup _ _ _ Ey), Ey. cbn. unfold int_div.
      rewrite decide_False; [done|]. intros ->. apply Hzc. by eapply list_elem_of_lookup_2.
  - intros Hz. set (n := Z.to_nat (_borderCount p)) in *.
    assert (Hj : exists j, (j < n)%nat /\
              (_borderSPLength q !! j = Some 0 \/
               (exists y, _borderSPLength q !! j = Some y /\ y <> 0) /\
               _borderSPCount q !! j = Some 0)).
    { destruct Hz as [Hz|Hz]; apply list_elem_of_lookup_1 in Hz as [j Ej];
        pose proof (lookup_lt_Some _ _ _ Ej); exists j; split; try lia.
      - by left.
      - destruct (lookup_lt_is_Some_2 (_borderSPLength q) j) as [y Ey]; [lia|].
        destruct (decide (y = 0)) as [->|Hy]; [by left|right; eauto]. }
    destruct Hj as (j & Hjn & Hcase).
    apply (for_range_undefined
      (fun t : Profile => length (_borderSPLength t) = n /\ length (_borderSPCount t) = n)
      _ _ _ j); [apply elementwise_body_shape|done| |done|].
    + intros i t. unfold upd_length, upd_count, int_div.
      repeat first [discriminate | apply vec_get_not_oor
        | apply vec_set_not_oor | apply bind_not_oor | intros ? | case_decide].
    + intros t [Htl Htc].
      destruct (lookup_lt_is_Some_2 (_borderSPLength t) j) as [x Ex]; [lia|].
      destruct (lookup_lt_is_Some_2 (_borderSPCount t) j) as [z Ez]; [lia|].
      unfold upd_length. rewrite (vec_get_lookup _ _ _ Ex). cbn.
      destruct Hcase as [Ey|((y & Ey & Hy) & Ec)].
      * rewrite (vec_get_lookup _ _ _ Ey). cbn. unfold int_div.
        rewrite decide_True; done.
      * rewrite (vec_get_lookup _ _ _ Ey). cbn. unfold int_div.
        rewrite decide_False by done. cbn.
        rewrite vec_set_lookup by lia. cbn. unfold upd_count. cbn.
        rewrite (vec_get_lookup _ _ _ Ez). cbn.
        rewrite (vec_get_lookup _ _ _ Ec). cbn. rewrite decide_True; done.
Qed.

Lemma div_profile_zero_entry_witness :
  div cmp_P cmp_Q = Undefined /\
  div cmp_Q (mkVertexInfo 2 [5; -2] [3; 1]) = Ok (mkVertexInfo 2 [0; 0] [0; 0]).
Proof.
  destruct (div_profile_zero_entry cmp_P cmp_Q) as [_ H1];
    [vm_compute; split_and!; congruence | vm_compute; split_and!; congruence
    | reflexivity |].
  destruct (div_profile_zero_entry cmp_Q (mkVertexInfo 2 [5; -2] [3; 1])) as [H2 _];
    [vm_compute; split_and!; congruence | vm_compute; split_and!; congruence
    | reflexivity |].
  split.
  - apply H1. left. cbn. left.
  - rewrite H2; [reflexivity|cbn..]; apply (bool_decide_unpack _); vm_compute; exact I.
Defined.

Lemma first_nonzero_interleaved_zero cs cs' ls ls' :
  length cs' = length cs -> length ls = length cs -> length ls' = length cs ->
  first_nonzero (interleaved_diffs cs cs' ls ls') = 0 <-> cs = cs' /\ ls = ls'.
Proof.
  revert cs' ls ls'.
  induction cs as [|c cs IH]; intros [|c' cs'] [|l ls] [|l' ls'] H1 H2 H3;
    cbn in *; try lia; [done|].
  destruct (decide (c - c' <> 0)) as [Hc|Hc].
  - split; [lia|intros [[= ->] _]; lia].
  - destruct (decide (l - l' <> 0)) as [Hl|Hl].
    + split; [lia|intros [_ [= ->]]; lia].
    + rewrite IH by lia. split.
      * intros [-> ->]. split; f_equal; lia.
      * intros [[= _ ->] [= _ ->]]. done.
Qed.

(** For profiles of the same width, [p == q] holds exactly when the two
    profiles are equal. *)
Theorem eqb_op_iff_equal (p q : Profile) :
  wf p -> wf q -> _borderCount p = _borderCount q ->
  (eqb_op p q = Ok true <-> p = q).
Proof.
  intros Hp Hq Heq. pose proof Hp as (Hn & Hl & Hc). pose proof Hq as (Hn' & Hl' & Hc').
  unfold eqb_op. rewrite (compare_interleaved p q Hp Hq Heq). cbn.
  split.
  - intros [= Hb]. apply bool_decide_eq_true in Hb.
    apply first_nonzero_interleaved_zero in Hb as [Ec El]; [|lia..].
    destruct p, q; cbn in *; by subst.
  - intros <-. rewrite first_nonzero_self. done.
Qed.

Lemma eqb_op_iff_equal_witness :
  (eqb_op cmp_P cmp_P = Ok true <-> cmp_P = cmp_P) /\
  (eqb_op cmp_P cmp_Q = Ok true <-> cmp_P = cmp_Q).
Proof.
  split; apply eqb_op_iff_equal;
    first [vm_compute; split_and!; congruence | reflexivity].
Defined.

(** With signed integer counts and lengths whose differences are exact
    (no wrap-around: [Profile]), for profiles of the same width exactly
    one of [p < q], [p == q], [p > q] holds; [!=], [<=] and [>=] are the
    negations of [==], [>] and [<]; and swapping the operands swaps [<]
    and [>]. *)
Theorem relational_ops_consistent (p q : Profile) :
  wf p -> wf q -> _borderCount p = _borderCount q ->
  exists lt eq gt : bool,
    ltb_op p q = Ok lt /\ eqb_op p q = Ok eq /\ gtb_op p q = Ok gt /\
    neqb_op p q = Ok (negb eq) /\ leb_op p q = Ok (negb gt) /\
    geb_op p q = Ok (negb lt) /\
    ltb_op q p = Ok gt /\ gtb_op q p = Ok lt /\ eqb_op q p = Ok eq /\
    (Nat.b2n lt + Nat.b2n eq + Nat.b2n gt = 1)%nat.
Proof.
  intros Hp Hq Heq.
  pose proof (compare_interleaved p q Hp Hq Heq) as Epq.
  pose proof (compare_interleaved q p Hq Hp (eq_sym Heq)) as Eqp.
  rewrite interleaved_diffs_swap, first_nonzero_opp in Eqp.
  set (c := first_nonzero _) in Epq, Eqp.
  exists (bool_decide (c < 0)), (bool_decide (c = 0)), (bool_decide (c > 0)).
  unfold ltb_op, eqb_op, gtb_op, neqb_op, leb_op, geb_op.
  rewrite Epq, Eqp. cbn.
  split_and!; try f_equal; repeat case_bool_decide; cbn;
    first [reflexivity | exfalso; lia].
Qed.

Lemma relational_ops_consistent_witness :
  exists lt eq gt : bool,
    ltb_op cmp_P cmp_Q = Ok lt /\ eqb_op cmp_P cmp_Q = Ok eq /\ gtb_op cmp_P cmp_Q = Ok gt /\
    neqb_op cmp_P cmp_Q = Ok (negb eq) /\ leb_op cmp_P cmp_Q = Ok (negb gt) /\
    geb_op cmp_P cmp_Q = Ok (negb lt) /\
    ltb_op cmp_Q cmp_P = Ok gt /\ gtb_op cmp_Q cmp_P = Ok lt /\ eqb_op cmp_Q cmp_P = Ok eq /\
    (Nat.b2n lt + Nat.b2n eq + Nat.b2n gt = 1)%nat.
Proof.
  apply relational_ops_consistent;
    first [vm_compute; split_and!; congruence | reflexivity].
Defined.

Lemma first_nonzero_interleaved_trans cs1 cs2 cs3 ls1 ls2 ls3 :
  length cs2 = length cs1 -> length cs3 = length cs1 ->
  length ls1 = length cs1 -> length ls2 = length cs1 -> length ls3 = length cs1 ->
  first_nonzero (interleaved_diffs cs1 cs2 ls1 ls2) < 0 ->
  first_nonzero (interleaved_diffs cs2 cs3 ls2 ls3) < 0 ->
  first_nonzero (interleaved_diffs cs1 cs3 ls1 ls3) < 0.
Proof.
  revert cs2 cs3 ls1 ls2 ls3.
  induction cs1 as [|a cs1 IH];
    intros [|b cs2] [|c cs3] [|x ls1] [|y ls2] [|z ls3] H1 H2 H3 H4 H5;
    cbn in *; try lia.
  intros H12 H23. repeat case_decide; try lia.
  eapply IH; [..|exact H12|exact H23]; lia.
Qed.

(** For profiles of the same width, [<] is transitive. *)
Theorem ltb_op_transitive (p q r : Profile) :
  wf p -> wf q -> wf r ->
  _borderCount p = _borderCount q -> _borderCount q = _borderCount r ->
  ltb_op p q = Ok true -> ltb_op q r = Ok true -> ltb_op p r = Ok true.
Proof.
  intros Hp Hq Hr Hpq Hqr. pose proof Hp as (Hn & Hl & Hc).
  pose proof Hq as (Hn' & Hl' & Hc'). pose proof Hr as (Hn'' & Hl'' & Hc'').
  unfold ltb_op. rewrite (compare_interleaved p q), (compare_interleaved q r),
    (compare_interleaved p r) by (done || lia). cbn.
  intros [= H1] [= H2]. apply bool_decide_eq_true in H1, H2.
  f_equal. apply bool_decide_eq_true.
  eapply first_nonzero_interleaved_trans; [..|exact H1|exact H2]; lia.
Qed.

Lemma ltb_op_transitive_witness :
  ltb_op cmp_Q cmp_P = Ok true /\ ltb_op cmp_P (mkVertexInfo 2 [6; 0] [0; 0]) = Ok true /\
  ltb_op cmp_Q (mkVertexInfo 2 [6; 0] [0; 0]) = Ok true.
Proof.
  assert (H1 : ltb_op cmp_Q cmp_P = Ok true) by reflexivity.
  assert (H2 : ltb_op cmp_P (mkVertexInfo 2 [6; 0] [0; 0]) = Ok true) by reflexivity.
  split_and!; [exact H1|exact H2|].
  apply (ltb_op_transitive cmp_Q cmp_P (mkVertexInfo 2 [6; 0] [0; 0]));
    first [vm_compute; split_and!; congruence | reflexivity | assumption].
Defined.

(* ------------------------------------------------------------------ *)
(** ** [getMinBorderSPLength], [normalize] and [squaredDistance] *)

Lemma foldl_min_sel_spec x t :
  foldl min_sel x t ∈ x :: t /\ forall y, y ∈ x :: t -> foldl min_sel x t <= y.
Proof.
  revert x. induction t as [|z t IH]; intros x; cbn.
  - split; [by apply list_elem_of_singleton|]. intros y Hy. apply list_elem_of_singleton in Hy. lia.
  - destruct (IH (min_sel x z)) as [Hin Hle]. split.
    + apply elem_of_cons in Hin as [->|Hin]; [|by rewrite !elem_of_cons; right; right].
      unfold min_sel. destruct decide; rewrite !elem_of_cons; [right; left|left]; done.
    + intros y Hy. apply elem_of_cons in Hy as [->|Hy].
      * etransitivity; [apply Hle, elem_of_cons; left; done|]. unfold min_sel. destruct decide; lia.
      * apply elem_of_cons in Hy as [->|Hy].
        -- etransitivity; [apply Hle, elem_of_cons; left; done|]. unfold min_sel. destruct decide; lia.
        -- apply Hle, elem_of_cons. by right.
Qed.

(** [getMinBorderSPLength] returns 0 on a profile of width 0; otherwise it
    returns one of the lengths, and no length is smaller. *)
Theorem getMinBorderSPLength_spec (p : Profile) :
  wf p ->
  (_borderCount p = 0 -> getMinBorderSPLength p = Ok 0) /\
  (0 < _borderCount p -> exists m, getMinBorderSPLength p = Ok m /\
     m ∈ _borderSPLength p /\ forall x, x ∈ _borderSPLength p -> m <= x).
Proof.
  intros (Hn & Hl & Hc). unfold getMinBorderSPLength. split.
  - intros H0. by rewrite decide_True.
  - intros Hpos. rewrite decide_False by lia.
    destruct (_borderSPLength p) as [|x t]; cbn in *; [lia|].
    exists (foldl min_sel x t). split; [done|]. apply foldl_min_sel_spec.
Qed.

Lemma getMinBorderSPLength_spec_witness :
  (_borderCount (VertexInfo_new 0) = 0 -> getMinBorderSPLength (VertexInfo_new 0) = Ok 0) /\
  (0 < _borderCount wide_Q -> exists m, getMinBorderSPLength wide_Q = Ok m /\
     m ∈ _borderSPLength wide_Q /\ forall x, x ∈ _borderSPLength wide_Q -> m <= x).
Proof.
  split.
  - apply getMinBorderSPLength_spec. vm_compute; split_and!; congruence.
  - apply getMinBorderSPLength_spec. vm_compute; split_and!; congruence.
Defined.

(** With integer lengths computed exactly (no overflow, no rounding:
    [Profile]), after [normalize] every length is non-negative, the
    difference between any two lengths is what it was before, and the
    counts and the width are unchanged. *)
Theorem normalize_shift (p : Profile) :
  wf p ->
  exists p', normalize p = Ok p' /\ wf p' /\
    _borderCount p' = _borderCount p /\ _borderSPCount p' = _borderSPCount p /\
    Forall (fun x => 0 <= x) (_borderSPLength p') /\
    (forall i j x y x' y', _borderSPLength p !! i = Some x -> _borderSPLength p !! j = Some y ->
       _borderSPLength p' !! i = Some x' -> _borderSPLength p' !! j = Some y' ->
       x' - y' = x - y).
Proof.
  intros Hp. destruct (getMin_ok p Hp) as [m Hm].
  pose proof Hp as (Hn & Hl & Hc).
  exists (mkVertexInfo (_borderCount p) ((fun x => x - m) <$> _borderSPLength p)
       (_borderSPCount p)).
  split; [by apply normalize_ok|]. cbn. split_and!; [|done|done| |].
  - unfold wf; cbn. by rewrite length_fmap.
  - apply Forall_forall. intros x' Hx'. apply list_elem_of_fmap in Hx' as (x & -> & Hx).
    destruct (getMinBorderSPLength_spec p Hp) as [_ Hpos].
    destruct (decide (_borderCount p = 0)).
    + destruct (_borderSPLength p); cbn in *; [by apply not_elem_of_nil in Hx|lia].
    + destruct Hpos as (m' & Hm' & _ & Hle); [lia|].
      rewrite Hm in Hm'. injection Hm' as <-. specialize (Hle x Hx). lia.
  - intros i j x y x' y' Ex Ey Ex' Ey'.
    rewrite list_lookup_fmap, Ex in Ex'. rewrite list_lookup_fmap, Ey in Ey'.
    injection Ex' as <-. injection Ey' as <-. lia.
Qed.

Lemma normalize_shift_witness :
  exists p', normalize wide_Q = Ok p' /\ wf p' /\
    _borderCount p' = _borderCount wide_Q /\ _borderSPCount p' = _borderSPCount wide_Q /\
    Forall (fun x => 0 <= x) (_borderSPLength p') /\
    (forall i j x y x' y', _borderSPLength wide_Q !! i = Some x ->
       _borderSPLength wide_Q !! j = Some y ->
       _borderSPLength p' !! i = Some x' -> _borderSPLength p' !! j = Some y' ->
       x' - y' = x - y).
Proof.
  apply normalize_shift. vm_compute; split_and!; congruence.
Defined.

Abbreviation sqdZ := (sqd_acc Z.sub Z.sub sq sq Z.add).

Lemma sqdZ_shift acc ls ls' cs cs' : sqdZ acc ls ls' cs cs' = acc + sqdZ 0 ls ls' cs cs'.
Proof.
  revert acc ls' cs cs'.
  induction ls as [|l ls IH]; intros acc [|l' ls'] [|c cs] [|c' cs']; cbn; try lia.
  rewrite (IH (acc + _ + _)), (IH (0 + _ + _)). lia.
Qed.

Lemma sqdZ_cons l ls l' ls' c cs c' cs' :
  sqdZ 0 (l :: ls) (l' :: ls') (c :: cs) (c' :: cs') =
  sq (l - l') + sq (c - c') + sqdZ 0 ls ls' cs cs'.
Proof. cbn. rewrite sqdZ_shift. lia. Qed.

Lemma sq_nonneg x : 0 <= sq x.
Proof. unfold sq. nia. Qed.

Lemma sq_eq_0 x : sq x = 0 <-> x = 0.
Proof. unfold sq. split; [intros H; apply Z.mul_eq_0 in H; lia|intros ->; done]. Qed.

Lemma sqdZ_nonneg ls ls' cs cs' : 0 <= sqdZ 0 ls ls' cs cs'.
Proof.
  revert ls' cs cs'.
  induction ls as [|l ls IH]; intros [|l' ls'] [|c cs] [|c' cs']; try (cbn; lia).
  rewrite sqdZ_cons.
  pose proof (sq_nonneg (l - l')). pose proof (sq_nonneg (c - c')).
  specialize (IH ls' cs cs'). lia.
Qed.

Lemma sqdZ_sym ls ls' cs cs' : sqdZ 0 ls ls' cs cs' = sqdZ 0 ls' ls cs' cs.
Proof.
  revert ls' cs cs'.
  induction ls as [|l ls IH]; intros [|l' ls'] [|c cs] [|c' cs']; try reflexivity.
  assert (Hs : forall x y, sq (x - y) = sq (y - x)) by (intros; unfold sq; ring).
  rewrite !sqdZ_cons, IH, (Hs l), (Hs c). done.
Qed.

Lemma sqdZ_zero ls ls' cs cs' :
  length ls' = length ls -> length cs = length ls -> length cs' = length ls ->
  sqdZ 0 ls ls' cs cs' = 0 <-> ls = ls' /\ cs = cs'.
Proof.
  revert ls' cs cs'.
  induction ls as [|l ls IH]; intros [|l' ls'] [|c cs] [|c' cs'] H1 H2 H3;
    cbn in H1, H2, H3; try lia; [done|].
  rewrite sqdZ_cons. pose proof (sqdZ_nonneg ls ls' cs cs') as Hn.
  pose proof (sq_nonneg (l - l')). pose proof (sq_nonneg (c - c')). split.
  - intros Hz.
    assert (Hl : l - l' = 0) by (apply sq_eq_0; lia).
    assert (Hc : c - c' = 0) by (apply sq_eq_0; lia).
    destruct (proj1 (IH ls' cs cs' ltac:(lia) ltac:(lia) ltac:(lia))) as [-> ->]; [lia|].
    split; f_equal; lia.
  - intros [[= <- <-] [= <- <-]].
    rewrite (proj2 (IH ls cs cs ltac:(lia) ltac:(lia) ltac:(lia))) by done.
    rewrite !Z.sub_diag. reflexivity.
Qed.

(** For profiles of the same width, the exact squared distance is
    symmetric, never negative, and zero exactly when the profiles are
    equal. *)
Theorem squaredDistance_exact_metric (p q : Profile) :
  wf p -> wf q -> _borderCount p = _borderCount q ->
  exists d, squaredDistance_exact p q = Ok d /\ squaredDistance_exact q p = Ok d /\
    0 <= d /\ (d = 0 <-> p = q).
Proof.
  intros Hp Hq Heq. pose proof Hp as (Hn & Hl & Hc). pose proof Hq as (Hn' & Hl' & Hc').
  unfold squaredDistance_exact.
  rewrite (squaredDistance_acc 0 Z.sub Z.sub sq sq Z.add p q),
    (squaredDistance_acc 0 Z.sub Z.sub sq sq Z.add q p) by (done || lia).
  eexists. split; [reflexivity|]. split; [by rewrite sqdZ_sym|].
  split; [apply sqdZ_nonneg|].
  rewrite sqdZ_zero by lia. split.
  - intros [El Ec]. destruct p, q; cbn in *. by subst.
  - intros ->. done.
Qed.

Lemma squaredDistance_exact_metric_witness :
  exists d, squaredDistance_exact cmp_P cmp_Q = Ok d /\
    squaredDistance_exact cmp_Q cmp_P = Ok d /\ 0 <= d /\ (d = 0 <-> cmp_P = cmp_Q).
Proof.
  apply squaredDistance_exact_metric;
    first [vm_compute; split_and!; congruence | reflexivity].
Defined.

(* ------------------------------------------------------------------ *)
(** ** [renumber_communities] and [build_result] *)

Lemma assign_final_no_sentinel f r i :
  Forall (fun x => x <> -1) r -> (i < length r)%nat ->
  assign_final f r !! i = Some (f + Z.of_nat i).
Proof.
  revert f i. induction r as [|x t IH]; intros f i Hr Hi; cbn in *; [lia|].
  apply Forall_cons in Hr as [Hx Ht]. rewrite decide_True by done.
  destruct i as [|i]; cbn; [f_equal; lia|].
  rewrite IH by (done || lia). f_equal. lia.
Qed.

(** When every node is its own community ([n2c[i] = i]), renumbering
    leaves [comms] unchanged. *)
Theorem renumber_communities_identity (comms : list Z) (n : Z) :
  0 <= n -> Forall (fun a => 0 <= a < n) comms ->
  renumber_communities comms (seqZ 0 n) = Ok comms.
Proof.
  intros Hn Hcomms. unfold renumber_communities.
  destruct (count_members_ok (replicate (length (seqZ 0 n)) (-1)) (seqZ 0 n))
    as (r & Er & Hlen & Hr).
  { apply Forall_forall. intros y Hy. apply elem_of_seqZ in Hy.
    rewrite length_replicate, length_seqZ. lia. }
  rewrite Er. cbv beta iota delta [mbind outcome_bind].
  rewrite length_replicate, length_seqZ in Hlen.
  assert (Hns : Forall (fun x => x <> -1) r).
  { apply Forall_lookup. intros c x Ex.
    pose proof (lookup_lt_Some _ _ _ Ex) as Hc.
    destruct (Hr c (-1)) as (x' & Ex' & _ & Hiff).
    { apply lookup_replicate. rewrite length_seqZ. lia. }
    rewrite Ex in Ex'. injection Ex' as <-. intros ->.
    apply (proj1 Hiff eq_refl). apply elem_of_seqZ. lia. }
  destruct (relabel_ok (assign_final 0 r) (seqZ 0 n) comms) as (comms' & E & Hl & Hc').
  - apply Forall_impl with (1 := Hcomms). intros a Ha. rewrite length_seqZ. lia.
  - apply Forall_forall. intros y Hy. apply elem_of_seqZ in Hy.
    rewrite assign_final_length. lia.
  - rewrite E. f_equal. apply list_eq. intros i.
    destruct (comms !! i) as [a|] eqn:Ea.
    + destruct (Hc' i a Ea) as (c & y & Ec & Ey & Ei). rewrite Ei.
      pose proof (list_elem_of_lookup_2 _ _ _ Ea) as Ha.
      rewrite Forall_forall in Hcomms. specialize (Hcomms a Ha).
      apply lookup_seqZ in Ec as [-> _].
      rewrite assign_final_no_sentinel in Ey by (done || lia).
      injection Ey as <-. f_equal. lia.
    + apply lookup_ge_None in Ea. apply lookup_ge_None_2. lia.
Qed.

Lemma renumber_communities_identity_witness :
  renumber_communities [2; 0; 2; 1] (seqZ 0 3) = Ok [2; 0; 2; 1].
Proof.
  apply renumber_communities_identity; [lia|].
  repeat constructor; lia.
Defined.

Lemma vec_get_out {A} (v : list A) (i : Z) :
  ~ (0 <= i < Z.of_nat (length v)) -> vec_get v i = Undefined.
Proof.
  intros Hi. unfold vec_get. destruct decide as [H0|]; [|done].
  rewrite lookup_ge_None_2; [done|lia].
Qed.

Lemma count_members_bad r n2c :
  (exists c, c ∈ n2c /\ ~ (0 <= c < Z.of_nat (length r))) ->
  count_members r n2c = Undefined.
Proof.
  revert r. induction n2c as [|c0 n2c IH]; intros r (c & Hc & Hout).
  - by apply not_elem_of_nil in Hc.
  - cbn. destruct (decide (0 <= c0 < Z.of_nat (length r))) as [Hin|Hbad].
    + destruct (lookup_lt_is_Some_2 r (Z.to_nat c0)) as [x Ex]; [lia|].
      rewrite (vec_get_Z _ _ _ (proj1 Hin) Ex). cbn.
      rewrite vec_set_Z by lia. cbn. apply IH.
      apply elem_of_cons in Hc as [->|Hc]; [done|].
      exists c. rewrite length_insert. done.
    + rewrite vec_get_out by done. done.
Qed.

(** If some node's community id in [n2c] is negative or not below
    [n2c.size()], [renumber_communities] indexes [renumber] out of its
    bounds: undefined behaviour. *)
Theorem renumber_communities_bad_id (comms n2c : list Z) :
  (exists c, c ∈ n2c /\ (c < 0 \/ Z.of_nat (length n2c) <= c)) ->
  renumber_communities comms n2c = Undefined.
Proof.
  intros (c & Hc & Hbad). unfold renumber_communities.
  rewrite count_members_bad; [done|].
  exists c. rewrite length_replicate. split; [done|lia].
Qed.

Lemma renumber_communities_bad_id_witness :
  renumber_communities [0; 1] [0; 2] = Undefined.
Proof.
  apply renumber_communities_bad_id. exists 2. split; [|cbn; lia].
  apply elem_of_cons. right. apply elem_of_cons. left. done.
Defined.

(** If some node has a negative community id, [build_result] indexes the
    result vector with it: undefined behaviour. *)
Theorem build_result_negative_id (n2c : list Z) :
  (exists c, c ∈ n2c /\ c < 0) -> build_result n2c = Undefined.
Proof.
  intros (c & Hc & Hneg). apply list_elem_of_lookup_1 in Hc as [j Ej].
  unfold build_result.
  apply (for_range_undefined (fun _ => True) _ _ _ j); try done.
  - intros i t. repeat first [discriminate | apply vec_get_not_oor
      | apply vec_set_not_oor | apply bind_not_oor | intros ?].
  - by apply lookup_lt_Some in Ej.
  - intros t _. rewrite (vec_get_lookup _ _ _ Ej). cbn.
    unfold vec_get at 1. rewrite decide_False by lia. done.
Qed.

Lemma build_result_negative_id_witness : build_result [0; -1; 1] = Undefined.
Proof.
  apply build_result_negative_id. exists (-1). split; [|lia].
  apply elem_of_cons. right. apply elem_of_cons. left. done.
Defined.

(* ------------------------------------------------------------------ *)
(** ** Comparing profiles of different widths *)

Lemma vec_get_agree {A} (v v' : list A) (i : nat) :
  v !! i = v' !! i -> vec_get v (Z.of_nat i) = vec_get v' (Z.of_nat i).
Proof. intros H. unfold vec_get. by rewrite Nat2Z.id, H. Qed.

Lemma compare_from_agree k (i : nat) (p o o' : Profile) :
  (forall j, (i <= j < i + k)%nat ->
     _borderSPCount o !! j = _borderSPCount o' !! j /\
     _borderSPLength o !! j = _borderSPLength o' !! j) ->
  compare_from k (Z.of_nat i) p o = compare_from k (Z.of_nat i) p o'.
Proof.
  revert i. induction k as [|k IH]; intros i H; cbn; [done|].
  destruct (H i) as [Hc Hl]; [lia|].
  rewrite (vec_get_agree _ _ i Hc), (vec_get_agree _ _ i Hl).
  replace (Z.of_nat i + 1) with (Z.of_nat (S i)) by lia.
  rewrite (IH (S i)); [done|]. intros j Hj. apply H. lia.
Qed.

(** [p == q] only looks at the first [p.borders()] entries: when [q] is
    at least as wide, it holds exactly when [p]'s lengths and counts are
    the first [p.borders()] lengths and counts of [q], whatever [q] holds
    beyond them. *)
Theorem eqb_op_wider_prefix (p q : Profile) :
  wf p -> wf q -> _borderCount p <= _borderCount q ->
  (eqb_op p q = Ok true <->
   _borderSPLength p = take (Z.to_nat (_borderCount p)) (_borderSPLength q) /\
   _borderSPCount p = take (Z.to_nat (_borderCount p)) (_borderSPCount q)).
Proof.
  intros Hp Hq Hle. pose proof Hp as (Hn & Hl & Hc). pose proof Hq as (Hn' & Hl' & Hc').
  set (n := Z.to_nat (_borderCount p)) in *.
  set (q' := mkVertexInfo (_borderCount p) (take n (_borderSPLength q))
               (take n (_borderSPCount q))).
  assert (Hq' : wf q').
  { unfold wf, q'; cbn. rewrite !length_take. lia. }
  assert (E : compare p q = compare p q').
  { unfold compare. change 0 with (Z.of_nat 0). apply compare_from_agree.
    intros j Hj. unfold q'; cbn. rewrite !lookup_take, !decide_True by (unfold n in *; lia).
    split; reflexivity. }
  unfold eqb_op. rewrite E, (compare_interleaved p q' Hp Hq' eq_refl). cbn.
  split.
  - intros [= Hb]. apply bool_decide_eq_true in Hb.
    apply first_nonzero_interleaved_zero in Hb as [Ec El];
      [unfold q' in *; cbn in *; by split|unfold q'; cbn; rewrite ?length_take; lia..].
  - intros [El Ec]. rewrite <- El, <- Ec, first_nonzero_self. done.
Qed.

Lemma eqb_op_wider_prefix_witness :
  eqb_op (mkVertexInfo 2 [1; 2] [4; 5]) wide_Q = Ok true.
Proof.
  apply (eqb_op_wider_prefix (mkVertexInfo 2 [1; 2] [4; 5]) wide_Q);
    [vm_compute; split_and!; congruence | vm_compute; split_and!; congruence
    | cbn; lia | split; reflexivity].
Defined.
